(** * ntext: string diagrams as recursive cell complexes

    A shallow embedding of [ntext.py].  Python objects are modelled as
    values of the types below; every function that mutates an argument in
    place returns the new contents of that argument next to its outcome, so
    that what the caller can observe afterwards -- also after an exception --
    is part of the result.  Exceptions are the constructors of [exn]. *)

From Stdlib Require Import ZArith List String Ascii Bool Lia.
Import ListNotations.
Local Open Scope string_scope.
Local Open Scope list_scope.
Local Open Scope Z_scope.

Set Implicit Arguments.

(** ** Exceptions and outcomes *)

Inductive exn : Type :=
| TypeError
| KeyError
| AttributeError
| IndexError
| ValueError
| AssertionError
| UnboundLocalError
| NotComposable
| NotCompatible.

Inductive result (A : Type) : Type :=
| Ok (a : A)
| Raise (e : exn).

Arguments Ok {A} a.
Arguments Raise {A} e.

Definition bind {A B : Type} (m : result A) (k : A -> result B) : result B :=
  match m with
  | Ok a => k a
  | Raise e => Raise e
  end.

Notation "x <- m ;; k" := (bind m (fun x => k))
  (at level 61, m at next level, right associativity).
Notation "' p <- m ;; k" := (bind m (fun p => k))
  (at level 61, p pattern, m at next level, right associativity).

(** A [for] loop over a list whose body may raise; [s] is what the body
    updates. *)
Fixpoint for_each {A S : Type} (l : list A) (body : A -> S -> result S)
  (s : S) : result S :=
  match l with
  | [] => Ok s
  | a :: l' => s' <- body a s ;; for_each l' body s'
  end.

(** A list comprehension whose element expression may raise. *)
Fixpoint comprehension {A B : Type} (f : A -> result B) (l : list A)
  : result (list B) :=
  match l with
  | [] => Ok []
  | a :: l' => b <- f a ;; bs <- comprehension f l' ;; Ok (b :: bs)
  end.

(** Code that mutates an object [S] of the caller: the object's contents are
    returned whatever the outcome. *)
Definition M (S A : Type) : Type := S -> result A * S.

Definition retM {S A : Type} (a : A) : M S A := fun s => (Ok a, s).
Definition bindM {S A B : Type} (m : M S A) (k : A -> M S B) : M S B :=
  fun s =>
    match m s with
    | (Ok a, s') => k a s'
    | (Raise e, s') => (Raise e, s')
    end.
Definition liftM {S A : Type} (r : result A) : M S A := fun s => (r, s).

Notation "x <~ m ;; k" := (bindM m (fun x => k))
  (at level 61, m at next level, right associativity).

Fixpoint for_eachM {A S T : Type} (l : list A) (body : A -> T -> M S T)
  (t : T) : M S T :=
  match l with
  | [] => retM t
  | a :: l' => t' <~ body a t ;; for_eachM l' body t'
  end.

(** ** Python containers *)

(** Keys of a [dict]: hashable values, compared by [keyb]. *)
Class Key (K : Type) : Type := keyb : K -> K -> bool.

#[global] Instance Key_string : Key string := String.eqb.

#[global] Instance Key_string_Z : Key (string * Z) :=
  fun a b => String.eqb (fst a) (fst b) && (snd a =? snd b).

(** [keyb] decides equality of keys. *)
Class KeyLaws (K : Type) `{Key K} : Prop :=
  keyb_eq : forall a b : K, keyb a b = true <-> a = b.

Arguments KeyLaws K {_}.

(** A [dict] keeps its keys in insertion order; assigning to a key already
    present keeps the key where it is. *)
Definition dict (K V : Type) : Type := list (K * V).

Section Dict.
Context {K V : Type} `{Key K}.

(** [d.get(k)] *)
Fixpoint dict_get (k : K) (d : dict K V) : option V :=
  match d with
  | [] => None
  | (k', v) :: d' => if keyb k k' then Some v else dict_get k d'
  end.

(** [k in d] *)
Definition dict_mem (k : K) (d : dict K V) : bool :=
  match dict_get k d with Some _ => true | None => false end.

(** [d[k] = v] *)
Fixpoint dict_set (k : K) (v : V) (d : dict K V) : dict K V :=
  match d with
  | [] => [(k, v)]
  | (k', v') :: d' =>
      if keyb k k' then (k', v) :: d' else (k', v') :: dict_set k v d'
  end.

(** [d[k]] *)
Definition dict_item (k : K) (d : dict K V) : result V :=
  match dict_get k d with Some v => Ok v | None => Raise KeyError end.

End Dict.

(** [l[i]] on a list, negative indices counting from the end. *)
Definition py_index {A : Type} (l : list A) (i : Z) : result A :=
  let n := Z.of_nat (List.length l) in
  let j := if i <? 0 then i + n else i in
  if (0 <=? j) && (j <? n) then
    match nth_error l (Z.to_nat j) with
    | Some a => Ok a
    | None => Raise IndexError
    end
  else Raise IndexError.

Fixpoint list_update {A : Type} (l : list A) (j : nat) (a : A) : list A :=
  match l, j with
  | [], _ => []
  | _ :: l', O => a :: l'
  | b :: l', S j' => b :: list_update l' j' a
  end.

(** [l[i] = a] *)
Definition py_setitem {A : Type} (l : list A) (i : Z) (a : A)
  : result (list A) :=
  let n := Z.of_nat (List.length l) in
  let j := if i <? 0 then i + n else i in
  if (0 <=? j) && (j <? n) then Ok (list_update l (Z.to_nat j) a)
  else Raise IndexError.

(** [list(range(a, b))] *)
Definition range_list (a b : Z) : list Z :=
  map (fun i => a + Z.of_nat i) (seq 0 (Z.to_nat (b - a))).

(** [enumerate(l)] *)
Definition enumerate {A : Type} (l : list A) : list (Z * A) :=
  combine (range_list 0 (Z.of_nat (List.length l))) l.

Definition deepcopy {A : Type} (a : A) : A := a.

(** ** The data model *)

(** An index sequence: a [list] of integers, or the [range(n)] object that
    [icell] stores. *)
Inductive idxs : Type :=
| IList (l : list Z)
| IRange (n : Z).

Definition idxs_items (p : idxs) : list Z :=
  match p with
  | IList l => l
  | IRange n => range_list 0 n
  end.

(** Name to index sequence: [smap], [tmap] and the two maps of a cell. *)
Definition imap : Type := dict string idxs.

(** [NtextCell = namedtuple('NtextCell', ['source', 'target'])] *)
Record NtextCell : Type := mkNtextCell {
  cell_source : imap;
  cell_target : imap
}.

(** What a name of an inventory is bound to: a counter (names of
    0-cells), or a list of cells whose not yet filled slots hold [None]. *)
Inductive cellsval : Type :=
| CCount (n : Z)
| CSeq (l : list (option NtextCell)).

(** The [cells] attribute: a bare name in dimension 0, a [dict] above. *)
Inductive inventory : Type :=
| Atomic (name : string)
| Indexed (d : dict string cellsval).

(** [Ntext = namedtuple('Ntext', cells dim source target smap tmap)];
    [source], [target], [smap] and [tmap] may be [None]. *)
#[warnings="-register-all"]
Inductive Ntext : Type := mkNtext {
  cells : inventory;
  dim : Z;
  source : option Ntext;
  target : option Ntext;
  smap : option imap;
  tmap : option imap
}.

(** [_ref = namedtuple('_ref', ['index', 'is_new'])]; the correspondence
    table maps [(name, index)] to a [_ref]. *)
Record _ref : Type := mk_ref { index : Z; is_new : bool }.

Definition refmap : Type := dict (string * Z) _ref.

(** ** Structural equality ([==]) *)

Class PyEq (A : Type) : Type := py_eq : A -> A -> bool.

#[global] Instance PyEq_Z : PyEq Z := Z.eqb.
#[global] Instance PyEq_string : PyEq string := String.eqb.

Fixpoint list_eqb {A : Type} (eqb : A -> A -> bool) (l1 l2 : list A) : bool :=
  match l1, l2 with
  | [], [] => true
  | a :: l1', b :: l2' => eqb a b && list_eqb eqb l1' l2'
  | _, _ => false
  end.

#[global] Instance PyEq_list {A : Type} `{PyEq A} : PyEq (list A) :=
  list_eqb py_eq.

Definition option_eqb {A : Type} (eqb : A -> A -> bool) (o1 o2 : option A)
  : bool :=
  match o1, o2 with
  | None, None => true
  | Some a, Some b => eqb a b
  | _, _ => false
  end.

#[global] Instance PyEq_option {A : Type} `{PyEq A} : PyEq (option A) :=
  option_eqb py_eq.

(** Two dicts are equal when they have as many items and agree on every
    key, whatever the insertion order. *)
Definition dict_sub {K V : Type} `{Key K} (eqb : V -> V -> bool)
  (d1 d2 : dict K V) : bool :=
  forallb (fun kv =>
             match dict_get (fst kv) d1, dict_get (fst kv) d2 with
             | Some v, Some v' => eqb v v'
             | _, _ => false
             end) d1.

Definition dict_eqb {K V : Type} `{Key K} (eqb : V -> V -> bool)
  (d1 d2 : dict K V) : bool :=
  Nat.eqb (List.length d1) (List.length d2) && dict_sub eqb d1 d2 && dict_sub eqb d2 d1.

#[global] Instance PyEq_dict {K V : Type} `{Key K} `{PyEq V}
  : PyEq (dict K V) := dict_eqb py_eq.

(** A list never equals a range; two ranges are equal as sequences. *)
Definition idxs_eqb (p q : idxs) : bool :=
  match p, q with
  | IList l, IList l' => py_eq l l'
  | IRange n, IRange m => Z.max 0 n =? Z.max 0 m
  | _, _ => false
  end.

#[global] Instance PyEq_idxs : PyEq idxs := idxs_eqb.

Definition NtextCell_eqb (c c' : NtextCell) : bool :=
  py_eq (cell_source c) (cell_source c')
  && py_eq (cell_target c) (cell_target c').

#[global] Instance PyEq_NtextCell : PyEq NtextCell := NtextCell_eqb.

Definition cellsval_eqb (v v' : cellsval) : bool :=
  match v, v' with
  | CCount n, CCount m => n =? m
  | CSeq l, CSeq l' => py_eq l l'
  | _, _ => false
  end.

#[global] Instance PyEq_cellsval : PyEq cellsval := cellsval_eqb.

Definition inventory_eqb (c c' : inventory) : bool :=
  match c, c' with
  | Atomic a, Atomic b => String.eqb a b
  | Indexed d, Indexed d' => py_eq d d'
  | _, _ => false
  end.

#[global] Instance PyEq_inventory : PyEq inventory := inventory_eqb.

Fixpoint Ntext_eqb (a b : Ntext) : bool :=
  py_eq (cells a) (cells b)
  && (dim a =? dim b)
  && match source a, source b with
     | None, None => true
     | Some x, Some y => Ntext_eqb x y
     | _, _ => false
     end
  && match target a, target b with
     | None, None => true
     | Some x, Some y => Ntext_eqb x y
     | _, _ => false
     end
  && py_eq (smap a) (smap b)
  && py_eq (tmap a) (tmap b).

#[global] Instance PyEq_Ntext : PyEq Ntext := Ntext_eqb.

(** The laws of [==]. *)
Class PyEqLaws (A : Type) `{PyEq A} : Prop := {
  py_eq_refl : forall a : A, py_eq a a = true;
  py_eq_sym : forall a b : A, py_eq a b = py_eq b a;
  py_eq_trans : forall a b c : A,
    py_eq a b = true -> py_eq b c = true -> py_eq a c = true
}.

Arguments PyEqLaws A {_}.

(** ** Attribute access and subscripting on values that may be [None] *)

(** [o.attr] for an [o] that may be [None]. *)
Definition deref {A : Type} (o : option A) : result A :=
  match o with
  | Some a => Ok a
  | None => Raise AttributeError
  end.

(** [m[name]] for an [m] that may be [None]. *)
Definition subscript {V : Type} (m : option (dict string V)) (name : string)
  : result V :=
  match m with
  | None => Raise TypeError
  | Some d => dict_item name d
  end.

(** [len(p)] for the value bound to a name of an inventory. *)
Definition cells_len (p : cellsval) : result Z :=
  match p with
  | CCount _ => Raise TypeError
  | CSeq l => Ok (Z.of_nat (List.length l))
  end.

(** ** Construction *)

Definition zcell (name : string) : Ntext :=
  mkNtext (Atomic name) 0 None None None None.

Definition icell (ntext : Ntext) : result Ntext :=
  let dim' := dim ntext + 1 in
  '(cells', smap') <-
    (if dim ntext =? 0 then
       match cells ntext with
       | Atomic name =>
           Ok (Indexed [(name, CCount 1)], [(name, IList [0])])
       | Indexed _ => Raise TypeError
       end
     else
       match deepcopy (cells ntext) with
       | Atomic _ => Raise AttributeError
       | Indexed c =>
           sm <- for_each c
                   (fun np sm =>
                      len <- cells_len (snd np) ;;
                      Ok (dict_set (fst np) (IRange len) sm))
                   [] ;;
           Ok (Indexed c, sm)
       end) ;;
  let source' := deepcopy ntext in
  let target' := deepcopy ntext in
  let tmap' := deepcopy smap' in
  Ok (mkNtext cells' dim' (Some source') (Some target') (Some smap') (Some tmap')).

(** ** Compatibility *)

Definition compatible (source' target' : Ntext) : result bool :=
  let r := py_eq (source source') (source target')
           && py_eq (target source') (target target') in
  if r then
    if dim source' =? dim target' then Ok r else Raise AssertionError
  else Ok r.

(** ** Face extraction *)

Fixpoint get_face (cell : Ntext) (n : nat) (side : Z) {struct n}
  : result (option Ntext * option imap) :=
  match n with
  | S n' =>
      src <- deref (source cell) ;;
      '(sc, scmap) <- get_face src n' side ;;
      items <- deref (smap cell) ;;
      smap' <- for_each items
                 (fun np acc =>
                    sel <- subscript scmap (fst np) ;;
                    l <- comprehension
                           (fun i => py_index (idxs_items (snd np)) i)
                           (idxs_items sel) ;;
                    Ok (dict_set (fst np) (IList l) acc))
                 [] ;;
      Ok (sc, Some smap')
  | O =>
      if side <? 0 then Ok (source cell, smap cell)
      else Ok (target cell, tmap cell)
  end.

(** ** New cells *)

(** While [_ncell] runs, the list bound to [name] holds the new cell, whose
    two maps [ncsource] and [nctarget] are still being filled: [SNew] stands
    for that cell, [SOld c] for a copy of a cell of the boundary. *)
Inductive slot : Type :=
| SNew
| SOld (c : option NtextCell).

Inductive wval : Type :=
| WCount (n : Z)
| WSeq (l : list slot).

Definition resolve (ncsource nctarget : imap) (w : dict string wval)
  : dict string cellsval :=
  map (fun kv =>
         (fst kv,
          match snd kv with
          | WCount n => CCount n
          | WSeq l =>
              CSeq (map (fun s =>
                           match s with
                           | SNew => Some (mkNtextCell ncsource nctarget)
                           | SOld c => c
                           end) l)
          end)) w.

(** The local dictionaries of [_ncell]. *)
Record ncell_state : Type := mk_ncell_state {
  st_ntext : dict string wval;
  st_smap : imap;
  st_tmap : imap;
  st_ncsource : imap;
  st_nctarget : imap;
  st_offset : dict string Z
}.

(** [for n, cells in source.cells.items()]: the body. *)
Definition ncell_copy_source (ncells : string * cellsval) (st : ncell_state)
  : result ncell_state :=
  let (n, cells') := ncells in
  match cells' with
  | CCount _ => Raise TypeError
  | CSeq l =>
      let ntext := dict_set n (WSeq (map (fun c => SOld (deepcopy c)) l))
                     (st_ntext st) in
      let r := IList (range_list 0 (Z.of_nat (List.length l))) in
      Ok (mk_ncell_state ntext (dict_set n r (st_smap st)) (st_tmap st)
            (dict_set n r (st_ncsource st)) (st_nctarget st) (st_offset st))
  end.

(** [for n, cells in target.cells.items()]: the body. *)
Definition ncell_append_target (ncells : string * cellsval) (st : ncell_state)
  : result ncell_state :=
  let (n, cells') := ncells in
  let ntext := if dict_mem n (st_ntext st) then st_ntext st
               else dict_set n (WSeq []) (st_ntext st) in
  present <- dict_item n ntext ;;
  match present with
  | WCount _ => Raise TypeError
  | WSeq old =>
      let off := Z.of_nat (List.length old) in
      let offset := dict_set n off (st_offset st) in
      match cells' with
      | CCount _ => Raise TypeError
      | CSeq l =>
          let ntext :=
            dict_set n (WSeq (old ++ map (fun c => SOld (deepcopy c)) l))
              ntext in
          let r := IList (range_list off (Z.of_nat (List.length l) + off)) in
          Ok (mk_ncell_state ntext (st_smap st) (dict_set n r (st_tmap st))
                (st_ncsource st) (dict_set n r (st_nctarget st)) offset)
      end
  end.

(** [for n, cells in ntext.items()]: the body.  The innermost loop,
    [for cell in cells[i]], iterates over the two fields of an [NtextCell],
    which are dicts, and asks each for its attribute [source]: the first
    appended cell that is reached raises, so [apply_offset] is never
    entered. *)
Definition ncell_shift_target (ncells : string * wval) (offset : dict string Z)
  : result unit :=
  let (n, cells') := ncells in
  off <- dict_item n offset ;;
  match cells' with
  | WCount _ => Raise TypeError
  | WSeq l =>
      match range_list off (Z.of_nat (List.length l)) with
      | [] => Ok tt
      | i :: _ =>
          c <- py_index l i ;;
          match c with
          | SOld None => Raise TypeError
          | _ => Raise AttributeError
          end
      end
  end.

Definition _ncell (name : string) (source' target' : Ntext) : result Ntext :=
  let source' := deepcopy source' in
  let target' := deepcopy target' in
  let dim' := dim source' in
  let st := mk_ncell_state [(name, WSeq [SNew])] [] [] [] [] [] in
  st <-
    (if 0 <? dim' then
       scells <- match cells source' with
                 | Atomic _ => Raise AttributeError
                 | Indexed d => Ok d
                 end ;;
       st <- for_each scells ncell_copy_source st ;;
       tcells <- match cells target' with
                 | Atomic _ => Raise AttributeError
                 | Indexed d => Ok d
                 end ;;
       st <- for_each tcells ncell_append_target st ;;
       _ <- for_each (st_ntext st)
              (fun ncells _ => ncell_shift_target ncells (st_offset st)) tt ;;
       Ok st
     else
       sn <- match cells source' with
             | Atomic sn => Ok sn
             | Indexed _ => Raise TypeError
             end ;;
       let ntext := dict_set sn (WCount 1) (st_ntext st) in
       let smap' := dict_set sn (IList [0]) (st_smap st) in
       let ncsource := dict_set sn (IList [0]) (st_ncsource st) in
       tn <- match cells target' with
             | Atomic tn => Ok tn
             | Indexed _ => Raise TypeError
             end ;;
       match dict_get tn ntext with
       | Some (WCount c) =>
           Ok (mk_ncell_state (dict_set tn (WCount (c + 1)) ntext) smap'
                 (dict_set tn (IList [1]) (st_tmap st)) ncsource
                 (dict_set tn (IList [1]) (st_nctarget st)) (st_offset st))
       | Some (WSeq _) => Raise TypeError
       | None =>
           Ok (mk_ncell_state (dict_set tn (WCount 1) ntext) smap'
                 (dict_set tn (IList [0]) (st_tmap st)) ncsource
                 (dict_set tn (IList [0]) (st_nctarget st)) (st_offset st))
       end) ;;
  Ok (mkNtext
        (Indexed (resolve (st_ncsource st) (st_nctarget st) (st_ntext st)))
        (dim' + 1) (Some source') (Some target')
        (Some (st_smap st)) (Some (st_tmap st))).

Definition ncell (name : string) (source' target' : Ntext) : result Ntext :=
  c <- compatible source' target' ;;
  if negb c then Raise NotCompatible
  else _ncell name source' target'.

(** ** Composability *)

(** [for name, pos in smap.items()]: the body, with its inner loop
    [for i, k in enumerate(pos)]. *)
Definition record_face (tmap' : option imap) (npos : string * idxs)
  (mapping : refmap) : result refmap :=
  let (name, pos) := npos in
  t <- subscript tmap' name ;;
  for_each (enumerate (idxs_items pos))
    (fun ik mapping =>
       ti <- py_index (idxs_items t) (fst ik) ;;
       Ok (dict_set (name, snd ik) (mk_ref ti false) mapping))
    mapping.

(** [mapping] is [None] or a correspondence table, which is filled in place:
    the table is returned with the answer. *)
Definition composable (dst src : Ntext) (n : nat) (mapping : option refmap)
  : result (bool * option refmap) :=
  if negb (dim dst =? dim src) then Ok (false, mapping)
  else
    '(target', tmap') <- get_face dst n 1 ;;
    '(source', smap') <- get_face src n (-1) ;;
    mapping <- match mapping with
               | None => Ok None
               | Some m =>
                   items <- deref smap' ;;
                   m <- for_each items (record_face tmap') m ;;
                   Ok (Some m)
               end ;;
    Ok (py_eq source' target', mapping).

(** ** Stitching *)

(** [for i in range(length): if ni not in mapping: ...], with [clength] an
    integer. *)
Fixpoint allocate (name : string) (todo : list Z) (mapping : refmap)
  (clength : Z) : refmap * Z :=
  match todo with
  | [] => (mapping, clength)
  | i :: todo' =>
      if dict_mem (name, i) mapping then allocate name todo' mapping clength
      else allocate name todo'
             (dict_set (name, i) (mk_ref clength true) mapping) (clength + 1)
  end.

(** The body of the loop of [pre_stitch], on the inventory [dst]. *)
Definition pre_stitch_item (nmaps : string * cellsval) (mapping : refmap)
  : M inventory refmap :=
  fun dst =>
    let (name, maps) := nmaps in
    match dst with
    | Atomic _ => (Raise AttributeError, dst)
    | Indexed d =>
        match maps with
        | CCount length =>
            let cells' := match dict_get name d with
                          | Some v => v
                          | None => CCount 0
                          end in
            match cells' with
            | CCount clength =>
                let d := if clength =? 0 then dict_set name cells' d else d in
                let (mapping, clength) :=
                  allocate name (range_list 0 length) mapping clength in
                (Ok mapping, Indexed (dict_set name (CCount clength) d))
            | CSeq l =>
                (* [clength] is a list: [clength += 1] raises at the first
                   index that is not in the table *)
                if forallb (fun i => dict_mem (name, i) mapping)
                     (range_list 0 length)
                then (Ok mapping, dst)
                else (Raise TypeError, dst)
            end
        | CSeq maps' =>
            let length := Z.of_nat (List.length maps') in
            (* [cells = dst.get(name) or []] *)
            match (match dict_get name d with
                   | None | Some (CCount 0) => Ok []
                   | Some (CCount _) => Raise TypeError
                   | Some (CSeq l) => Ok l
                   end) with
            | Raise e => (Raise e, dst)
            | Ok cells' =>
                let clength := Z.of_nat (List.length cells') in
                let d := match cells' with
                         | [] => dict_set name (CSeq []) d
                         | _ => d
                         end in
                let (mapping, clength) :=
                  allocate name (range_list 0 length) mapping clength in
                let cells' :=
                  cells' ++ map (fun _ => None)
                              (range_list (Z.of_nat (List.length cells')) clength) in
                (Ok mapping, Indexed (dict_set name (CSeq cells') d))
            end
        end
    end.

(** [src.items()] *)
Definition inventory_items (src : inventory)
  : result (dict string cellsval) :=
  match src with
  | Atomic _ => Raise AttributeError
  | Indexed d => Ok d
  end.

Definition pre_stitch (src : inventory) (mapping : refmap)
  : M inventory refmap :=
  items <~ liftM (inventory_items src) ;;
  for_eachM items pre_stitch_item mapping.

(** [t[n] = [mapping[(n, k)].index for k in p]] for every item of [ct]. *)
Definition translate (mapping : refmap) (ct : imap) : result imap :=
  for_each ct
    (fun np t =>
       l <- comprehension
              (fun k => r <- dict_item (fst np, k) mapping ;; Ok (index r))
              (idxs_items (snd np)) ;;
       Ok (dict_set (fst np) (IList l) t))
    [].

(** [dst[name]] on the inventory. *)
Definition inventory_item (name : string) (dst : inventory)
  : result cellsval :=
  match dst with
  | Atomic _ => Raise TypeError
  | Indexed d => dict_item name d
  end.

(** The body of [for i, cell in enumerate(maps)]; [cells] is the list
    [dst[name]], updated in place. *)
Definition stitch_cell (mapping : refmap) (name : string)
  (icell' : Z * option NtextCell) (u : unit) : M inventory unit :=
  fun dst =>
    let (i, cell) := icell' in
    match
      (r <- dict_item (name, i) mapping ;;
       if is_new r then
         cells' <- inventory_item name dst ;;
         match cells' with
         | CCount _ => Raise TypeError
         | CSeq l =>
             old <- py_index l (index r) ;;
             match old with
             | Some _ => Raise AssertionError
             | None =>
                 c <- deref cell ;;
                 source' <- translate mapping (cell_source c) ;;
                 target' <- translate mapping (cell_target c) ;;
                 l <- py_setitem l (index r)
                        (Some (mkNtextCell source' target')) ;;
                 Ok (Some (CSeq l))
             end
         end
       else Ok None)
    with
    | Raise e => (Raise e, dst)
    | Ok None => (Ok tt, dst)
    | Ok (Some v) =>
        match dst with
        | Atomic _ => (Ok tt, dst)
        | Indexed d => (Ok tt, Indexed (dict_set name v d))
        end
    end.

(** The body of the second loop of [stitch]. *)
Definition stitch_item (mapping : refmap) (nmaps : string * cellsval)
  (u : unit) : M inventory unit :=
  let (name, maps) := nmaps in
  match maps with
  | CCount _ => retM tt
  | CSeq maps' =>
      _ <~ (fun dst => (bind (inventory_item name dst) (fun _ => Ok tt), dst)) ;;
      for_eachM (enumerate maps') (stitch_cell mapping name) tt
  end.

Definition stitch (src : inventory) (mapping : refmap)
  : M inventory refmap :=
  mapping <~ pre_stitch src mapping ;;
  items <~ liftM (inventory_items src) ;;
  _ <~ for_eachM items (stitch_item mapping) tt ;;
  retM mapping.

(** ** Composition *)

Definition set_cells (c : inventory) (d : Ntext) : Ntext :=
  mkNtext c (dim d) (source d) (target d) (smap d) (tmap d).

(** [n, p = key]: unpacking a string needs exactly two characters. *)
Definition unpack_pair (key : string) : result (string * string) :=
  match key with
  | String a (String b EmptyString) =>
      Ok (String a EmptyString, String b EmptyString)
  | _ => Raise ValueError
  end.

(** [for n, p in sm]: the body; [dm] is extended in place.  [sm] is a dict,
    so the loop runs over its keys.  The table [cm] is keyed by a name and an
    integer, so the lookup [cm[(n, i)]] of a name and a character fails once
    [dm[n]] has been found to be a list. *)
Definition extend_boundary_map (cm : refmap) (key : string) (u : unit)
  : M (option imap) unit :=
  fun dm =>
    match unpack_pair key with
    | Raise e => (Raise e, dm)
    | Ok (n, p) =>
        match dm with
        | None => (Raise TypeError, dm)
        | Some m =>
            let m := if dict_mem n m then m else dict_set n (IList []) m in
            match dict_get n m with
            | Some (IRange _) => (Raise AttributeError, Some m)
            | _ => (Raise KeyError, Some m)
            end
        end
    end.

(** One round of the loop over the two boundaries in [compose]: [d] and
    [dm] are mutated in place, [rec] is [compose] one dimension down. *)
Definition compose_boundary
  (rec : Ntext -> option refmap -> M Ntext (option Ntext * refmap))
  (s : option Ntext) (sm : option imap)
  : M (option Ntext * option imap) Ntext :=
  fun st =>
    let (d, dm) := st in
    match d, s with
    | Some d', Some s' =>
        match rec s' (Some []) d' with
        | (Raise e, d'') => (Raise e, (Some d'', dm))
        | (Ok (None, _), d'') => (Raise AssertionError, (Some d'', dm))
        | (Ok (Some r, cm), d'') =>
            match sm with
            | None => (Raise TypeError, (Some d'', dm))
            | Some sm' =>
                match for_eachM (map fst sm') (extend_boundary_map cm) tt dm
                with
                | (Raise e, dm') => (Raise e, (Some d'', dm'))
                | (Ok _, dm') => (Ok r, (Some d'', dm'))
                end
            end
        end
    | _, _ => (Raise AttributeError, st)
    end.

(** [compose(dst, src, dim, mapping)] with [dst] as the mutated object.  The
    value [(ntext, True)] is [Some ntext], the value [(None, False)] is
    [None]; the table is returned next to it. *)
Fixpoint compose (src : Ntext) (n : nat) (mapping : option refmap)
  {struct n} : M Ntext (option Ntext * refmap) :=
  fun dst =>
    let mapping := match mapping with None => [] | Some m => m end in
    match composable dst src n (Some mapping) with
    | Raise e => (Raise e, dst)
    | Ok (c, mapping') =>
        let mapping := match mapping' with None => mapping | Some m => m end in
        if negb c then (Ok (None, mapping), dst)
        else
          match stitch (cells src) mapping (cells dst) with
          | (Raise e, ntext) => (Raise e, set_cells ntext dst)
          | (Ok mapping, ntext) =>
              let dst := set_cells ntext dst in
              match n with
              | S n' =>
                  match compose_boundary (fun s => compose s n')
                          (source src) (smap src) (source dst, smap dst)
                  with
                  | (Raise e, (d, dm)) =>
                      (Raise e,
                       mkNtext ntext (dim dst) d (target dst) dm (tmap dst))
                  | (Ok r0, (d, dm)) =>
                      let dst :=
                        mkNtext ntext (dim dst) d (target dst) dm (tmap dst)
                      in
                      match compose_boundary (fun s => compose s n')
                              (target src) (tmap src) (target dst, tmap dst)
                      with
                      | (Raise e, (d, dm)) =>
                          (Raise e,
                           mkNtext ntext (dim dst) (source dst) d (smap dst) dm)
                      | (Ok r1, (d, dm)) =>
                          (* [smap] and [tmap] are not bound on this path *)
                          (Raise UnboundLocalError,
                           mkNtext ntext (dim dst) (source dst) d (smap dst) dm)
                      end
                  end
              | O =>
                  let source' := source dst in
                  let target' := deepcopy (target src) in
                  let smap' := smap dst in
                  match (items <- deref (tmap src) ;; translate mapping items)
                  with
                  | Raise e => (Raise e, dst)
                  | Ok tmap' =>
                      (Ok (Some (mkNtext ntext (dim dst) source' target' smap'
                                   (Some tmap')), mapping), dst)
                  end
              end
          end
    end.

(** ** Adaptation *)

(** What [permute] receives as [ntext]: [adapt] passes the attribute
    [source] of a diagram, which is a diagram or [None]; an inventory is
    what can be reordered by name. *)
Inductive subscriptable : Type :=
| SubNone
| SubNtext (t : Ntext)
| SubInventory (d : dict string cellsval).

(** [perm.items()]: the body of the loop of [permute] on [ntext] and
    [mapping], both changed in place. *)
Definition permute_item (nq : string * list Z) (u : unit)
  : M (subscriptable * option imap) unit :=
  fun st =>
    let (name, q) := nq in
    let (ntext, mapping) := st in
    match ntext with
    | SubNone | SubNtext _ => (Raise TypeError, st)
    | SubInventory d =>
        match (cells' <- dict_item name d ;;
               match cells' with
               | CCount _ =>
                   match q with
                   | [] => Ok (CSeq [])
                   | _ => Raise TypeError
                   end
               | CSeq l => l' <- comprehension (py_index l) q ;; Ok (CSeq l')
               end)
        with
        | Raise e => (Raise e, st)
        | Ok v =>
            let ntext := SubInventory (dict_set name v d) in
            match (m <- subscript mapping name ;;
                   comprehension (py_index (idxs_items m)) q)
            with
            | Raise e => (Raise e, (ntext, mapping))
            | Ok m' =>
                (Ok tt,
                 (ntext,
                  match mapping with
                  | Some mp => Some (dict_set name (IList m') mp)
                  | None => None
                  end))
            end
        end
    end.

Definition permute (perm : dict string (list Z))
  : M (subscriptable * option imap) unit :=
  for_eachM perm permute_item tt.

Definition as_subscriptable (o : option Ntext) : subscriptable :=
  match o with
  | None => SubNone
  | Some t => SubNtext t
  end.

(** [adapt(cell, dim, perm)] with [cell] as the mutated object. *)
Fixpoint adapt (n : nat) (perm : dict string (list Z)) {struct n}
  : M Ntext unit :=
  fun cell =>
    match n with
    | S n' =>
        match source cell with
        | None => (Raise AttributeError, cell)
        | Some s =>
            match adapt n' perm s with
            | (Raise e, s') =>
                (Raise e,
                 mkNtext (cells cell) (dim cell) (Some s') (target cell)
                   (smap cell) (tmap cell))
            | (Ok _, s') =>
                match target cell with
                | None =>
                    (Raise AttributeError,
                     mkNtext (cells cell) (dim cell) (Some s') (target cell)
                       (smap cell) (tmap cell))
                | Some t =>
                    let (r, t') := adapt n' perm t in
                    (r,
                     mkNtext (cells cell) (dim cell) (Some s') (Some t')
                       (smap cell) (tmap cell))
                end
            end
        end
    | O =>
        match permute perm (as_subscriptable (source cell), smap cell) with
        | (r, (_, mapping)) =>
            (r,
             mkNtext (cells cell) (dim cell) (source cell) (target cell)
               mapping (tmap cell))
        end
    end.

(** ** The stateful composer *)

Record Composition : Type := mkComposition { _ntext : Ntext }.

(** [Composition(ntext)] *)
Definition Composition_init (ntext : Ntext) : result Composition :=
  s <- deref (source ntext) ;;
  i <- icell s ;;
  Ok (mkComposition i).

(** [self.ntext()] *)
Definition Composition_ntext (self : Composition) : Ntext :=
  deepcopy (_ntext self).

(** [self.compose(factor, n)]; [compose] works on [self._ntext] in place. *)
Definition Composition_compose (factor : Ntext) (n : nat)
  : M Composition unit :=
  fun self =>
    match compose factor n None (_ntext self) with
    | (Raise e, dst) => (Raise e, mkComposition dst)
    | (Ok (None, _), dst) => (Raise NotComposable, mkComposition dst)
    | (Ok (Some ntext, _), _) => (Ok tt, mkComposition ntext)
    end.

(** [Ntext.compatible], [Ntext.composable] and [Ntext.adapt]. *)
Definition Ntext_compatible (self target' : Ntext) : result bool :=
  compatible self target'.

Definition Ntext_composable (self ntext : Ntext) (n : nat) : result bool :=
  '(c, _) <- composable self ntext n None ;; Ok c.

Definition Ntext_adapt (n : nat) (perm : dict string (list Z))
  : M Ntext unit :=
  adapt n perm.

(** ** The diagrams of the scenarios *)

Definition gen_x : Ntext := zcell "x".
Definition gen_y : Ntext := zcell "y".

(** [f = ncell("f", x, y)] *)
Definition cell_f : Ntext :=
  mkNtext
    (Indexed
       [("f", CSeq [Some (mkNtextCell [("x", IList [0])] [("y", IList [0])])]);
        ("x", CCount 1); ("y", CCount 1)])
    1 (Some gen_x) (Some gen_y)
    (Some [("x", IList [0])]) (Some [("y", IList [0])]).

(** [g = ncell("g", y, x)] *)
Definition cell_g : Ntext :=
  mkNtext
    (Indexed
       [("g", CSeq [Some (mkNtextCell [("y", IList [0])] [("x", IList [0])])]);
        ("y", CCount 1); ("x", CCount 1)])
    1 (Some gen_y) (Some gen_x)
    (Some [("y", IList [0])]) (Some [("x", IList [0])]).

(** [icell(x)] *)
Definition id_x : Ntext :=
  mkNtext (Indexed [("x", CCount 1)]) 1 (Some gen_x) (Some gen_x)
    (Some [("x", IList [0])]) (Some [("x", IList [0])]).

(** A diagram of dimension 1 and one of dimension 2 with nothing in them,
    written down with the constructor of the exported class [Ntext]. *)
Definition bare_1 : Ntext :=
  mkNtext (Indexed []) 1 (Some gen_x) (Some gen_x) (Some []) (Some []).

Definition bare_2 : Ntext :=
  mkNtext (Indexed []) 2 (Some bare_1) (Some bare_1) (Some []) (Some []).

(** The diagram left in [dst], and returned, by composing the identity on
    [x] with [f]. *)
Definition id_x_then_f : Ntext :=
  mkNtext
    (Indexed
       [("x", CCount 1);
        ("f", CSeq [Some (mkNtextCell [("x", IList [0])] [("y", IList [0])])]);
        ("y", CCount 1)])
    1 (Some gen_x) (Some gen_y)
    (Some [("x", IList [0])]) (Some [("y", IList [0])]).

(** The table left by composing the identity on [x] with [f]. *)
Definition table_x_f : refmap :=
  [("x", 0, mk_ref 0 false); ("f", 0, mk_ref 0 true);
   ("y", 0, mk_ref 0 true)].

(** ** Cells between generators *)

(** The slot of the target of a 1-cell: the second one when the target
    carries the name of the source. *)
Definition target_slot (sn tn : string) : Z :=
  if String.eqb tn sn then 1 else 0.

(** What [ncell(name, zcell(sn), zcell(tn))] builds when [name] is unused. *)
Definition generator_cell (name sn tn : string) : Ntext :=
  mkNtext
    (Indexed
       ((name,
         CSeq [Some (mkNtextCell [(sn, IList [0])]
                       [(tn, IList [target_slot sn tn])])])
        :: if String.eqb tn sn then [(sn, CCount 2)]
           else [(sn, CCount 1); (tn, CCount 1)]))
    1 (Some (zcell sn)) (Some (zcell tn))
    (Some [(sn, IList [0])]) (Some [(tn, IList [target_slot sn tn])]).

(** ** Diagrams that satisfy the globular condition at every level *)

Inductive globular : Ntext -> Prop :=
| globular_generator (name : string) : globular (zcell name)
| globular_cell (c : inventory) (s t : Ntext) (sm tm : option imap) :
    globular s -> globular t -> compatible s t = Ok true ->
    globular (mkNtext c (dim s + 1) (Some s) (Some t) sm tm).

(** ** Diagrams of dimension 0 and 1 *)

(** An inventory that binds some name to a positive counter. *)
Definition has_counter (c : inventory) : Prop :=
  match c with
  | Atomic _ => False
  | Indexed d => exists k v, dict_get k d = Some (CCount v) /\ 0 < v
  end.

(** A generator, or a diagram of dimension 1 between two generators whose
    inventory has a counter. *)
Inductive shallow : Ntext -> Prop :=
| shallow_generator (name : string) : shallow (zcell name)
| shallow_cell (c : inventory) (a b : string) (sm tm : option imap) :
    has_counter c ->
    shallow (mkNtext c 1 (Some (zcell a)) (Some (zcell b)) sm tm).

(** ** The diagrams a client can obtain *)

(** Generators, identities, new cells, results of compositions, the
    boundaries of such diagrams, and such a diagram as a composition leaves
    it when it was passed as [dst] (the state of a composer after a call
    that raised). *)
Inductive built : Ntext -> Prop :=
| built_zcell (name : string) : built (zcell name)
| built_icell (d r : Ntext) : built d -> icell d = Ok r -> built r
| built_ncell (name : string) (s t r : Ntext) :
    built s -> built t -> ncell name s t = Ok r -> built r
| built_compose (dst src : Ntext) (n : nat) (mapping : option refmap)
    (r : Ntext) (m : refmap) (dst' : Ntext) :
    built dst -> built src ->
    compose src n mapping dst = (Ok (Some r, m), dst') -> built r
| built_in_place (dst src : Ntext) (n : nat) (mapping : option refmap) :
    built dst -> built src -> built (snd (compose src n mapping dst))
| built_source (d s : Ntext) : built d -> source d = Some s -> built s
| built_target (d t : Ntext) : built d -> target d = Some t -> built t.

(** ** Exceptions of the interpreter *)

(** The exceptions that the module does not define itself. *)
Definition builtin (e : exn) : Prop :=
  e <> NotComposable /\ e <> NotCompatible.

Definition only_builtin {A : Type} (r : result A) : Prop :=
  forall e, r = Raise e -> builtin e.

Definition only_builtinM {S A : Type} (m : M S A) : Prop :=
  forall s, only_builtin (fst (m s)).

(** ** Tables *)

(** How many cells a name of an inventory stands for. *)
Definition cells_size (v : cellsval) : Z :=
  match v with
  | CCount n => n
  | CSeq l => Z.of_nat (List.length l)
  end.

(** [m'] extends [m]: the entries of [m] are kept as they are, and every
    other entry of [m'] is flagged as new. *)
Definition extends_table (m m' : refmap) : Prop :=
  (forall key r, dict_get key m = Some r -> dict_get key m' = Some r)
  /\ (forall key r,
         dict_get key m' = Some r ->
         dict_get key m = Some r \/ is_new r = true).

(** ** What stitching keeps *)

(** [dst'] keeps what [dst] holds: the same names are bound, a positive
    counter is still a counter and has not decreased, and a list of cells is
    still a list in which every cell that was there is where it was. *)
Definition keeps_cells (dst dst' : inventory) : Prop :=
  match dst, dst' with
  | Atomic a, Atomic b => a = b
  | Indexed d, Indexed d' =>
      (forall k, dict_mem k d = true -> dict_mem k d' = true)
      /\ (forall k v,
             dict_get k d = Some (CCount v) -> 0 < v ->
             exists v', dict_get k d' = Some (CCount v') /\ v <= v')
      /\ (forall k l,
             dict_get k d = Some (CSeq l) ->
             exists l',
               dict_get k d' = Some (CSeq l')
               /\ forall j c,
                    nth_error l j = Some (Some c) ->
                    nth_error l' j = Some (Some c))
  | _, _ => False
  end.

(** ** The maps of the diagrams that can be obtained *)

(** A generator, or a diagram of dimension 1 between two generators whose
    source map binds the name of the source to one position and whose target
    map binds the name of the target to one position. *)
Inductive tidy : Ntext -> Prop :=
| tidy_generator (name : string) : tidy (zcell name)
| tidy_cell (c : inventory) (a b : string) (i j : Z) :
    tidy (mkNtext c 1 (Some (zcell a)) (Some (zcell b))
            (Some [(a, IList [i])]) (Some [(b, IList [j])])).

(** * Properties *)

(** ** The scenarios, evaluated *)

Lemma ncell_f : ncell "f" gen_x gen_y = Ok cell_f.
Proof. reflexivity. Qed.

Lemma ncell_g : ncell "g" gen_y gen_x = Ok cell_g.
Proof. reflexivity. Qed.

Lemma icell_x : icell gen_x = Ok id_x.
Proof. reflexivity. Qed.

Lemma Composition_init_f : Composition_init cell_f = Ok (mkComposition id_x).
Proof. reflexivity. Qed.

(** ** Basic facts about the embedding *)

Lemma bind_Ok {A B : Type} (m : result A) (k : A -> result B) (b : B) :
  bind m k = Ok b -> exists a, m = Ok a /\ k a = Ok b.
Proof. destruct m as [a|e]; simpl; [eauto | discriminate]. Qed.

Ltac bind_inv H :=
  let a := fresh "a" in
  let Ha := fresh "Ha" in
  apply bind_Ok in H; destruct H as (a & Ha & H).

(** Case analysis on the scrutinee at the head of either side of the goal. *)
Ltac head_case :=
  match goal with
  | |- (match ?x with _ => _ end) <> _ => destruct x
  | |- (match ?x with _ => _ end) = _ -> _ => destruct x
  | |- (if ?x then _ else _) = _ -> _ => destruct x
  end.

(** [compose] along a lower boundary never returns: after the two boundary
    compositions it reads [smap] and [tmap], which only the other branch
    binds. *)
Lemma compose_lower_raises (src : Ntext) (n : nat) (mapping : option refmap)
  (dst : Ntext) (r : Ntext) (m : refmap) (dst' : Ntext) :
  compose src (S n) mapping dst <> (Ok (Some r, m), dst').
Proof.
  simpl. repeat (head_case; simpl; try discriminate).
Qed.

(** What a vertical composition returns and what it leaves in [dst]. *)
Lemma compose_vertical_inv (src : Ntext) (mapping : option refmap)
  (dst r : Ntext) (m : refmap) (dst' : Ntext) :
  compose src 0 mapping dst = (Ok (Some r, m), dst') ->
  exists m0 m1 tm,
    composable dst src 0
      (Some match mapping with None => [] | Some m => m end)
    = Ok (true, m0)
    /\ stitch (cells src) m1 (cells dst) = (Ok m, cells dst')
    /\ dst' = set_cells (cells dst') dst
    /\ r = mkNtext (cells dst') (dim dst) (source dst) (target src) (smap dst)
             (Some tm).
Proof.
  simpl.
  destruct (composable dst src 0 _) as [[c m']|e]; [|discriminate].
  destruct c; simpl; [|discriminate].
  destruct (stitch _ _ _) as [[m1|e] ntext] eqn:Est; [|discriminate].
  destruct (bind _ _) as [tm|e]; [|discriminate].
  intros H; inversion H; subst; clear H.
  eexists m', _, tm. repeat split. exact Est.
Qed.

(** ** [==] is an equivalence *)

Lemma PyEqLaws_Z : PyEqLaws Z.
Proof.
  split; unfold py_eq, PyEq_Z.
  - apply Z.eqb_refl.
  - apply Z.eqb_sym.
  - intros a b c; rewrite !Z.eqb_eq; congruence.
Qed.

#[global] Existing Instance PyEqLaws_Z.

Lemma PyEqLaws_string : PyEqLaws string.
Proof.
  split; unfold py_eq, PyEq_string.
  - apply String.eqb_refl.
  - apply String.eqb_sym.
  - intros a b c; rewrite !String.eqb_eq; congruence.
Qed.

#[global] Existing Instance PyEqLaws_string.

Section ListLaws.
Context {A : Type} `{PyEqLaws A}.

Lemma list_eqb_refl (l : list A) : list_eqb py_eq l l = true.
Proof. induction l; simpl; [|rewrite py_eq_refl]; auto. Qed.

Lemma list_eqb_sym (l1 l2 : list A) :
  list_eqb py_eq l1 l2 = list_eqb py_eq l2 l1.
Proof.
  revert l2; induction l1 as [|a l1 IH]; intros [|b l2]; simpl; auto.
  rewrite py_eq_sym, IH; reflexivity.
Qed.

Lemma list_eqb_trans (l1 l2 l3 : list A) :
  list_eqb py_eq l1 l2 = true -> list_eqb py_eq l2 l3 = true ->
  list_eqb py_eq l1 l3 = true.
Proof.
  revert l2 l3; induction l1 as [|a l1 IH]; intros [|b l2] [|c l3]; simpl;
    try discriminate; auto.
  rewrite !andb_true_iff; intros [? ?] [? ?]; split;
    [eapply py_eq_trans | eapply IH]; eauto.
Qed.

Lemma PyEqLaws_list : PyEqLaws (list A).
Proof.
  split; [apply list_eqb_refl | apply list_eqb_sym | apply list_eqb_trans].
Qed.

#[global] Existing Instance PyEqLaws_list.

Lemma PyEqLaws_option : PyEqLaws (option A).
Proof.
  split; unfold py_eq, PyEq_option.
  - intros [a|]; simpl; [apply py_eq_refl | reflexivity].
  - intros [a|] [b|]; simpl; auto using py_eq_sym.
  - intros [a|] [b|] [c|]; simpl; try discriminate; auto.
    apply py_eq_trans.
Qed.

#[global] Existing Instance PyEqLaws_option.
End ListLaws.

Lemma KeyLaws_string : KeyLaws string.
Proof. exact String.eqb_eq. Qed.

#[global] Existing Instance KeyLaws_string.

Lemma KeyLaws_string_Z : KeyLaws (string * Z).
Proof.
  intros [a1 a2] [b1 b2]; unfold keyb, Key_string_Z; simpl.
  rewrite andb_true_iff, String.eqb_eq, Z.eqb_eq.
  split; [intros [-> ->]; reflexivity | intros H; inversion H; auto].
Qed.

#[global] Existing Instance KeyLaws_string_Z.

Section DictLaws.
Context {K V : Type} `{KeyLaws K} `{PyEqLaws V}.

Lemma dict_get_In (k : K) (v : V) (d : dict K V) :
  In (k, v) d -> exists v', dict_get k d = Some v'.
Proof.
  induction d as [|[k' v'] d IH]; simpl; [tauto|].
  intros [E|HIn].
  - inversion E; subst.
    replace (keyb k k) with true by (symmetry; apply keyb_eq; reflexivity).
    eauto.
  - destruct (keyb k k'); eauto.
Qed.

Lemma dict_get_Some (k : K) (v : V) (d : dict K V) :
  dict_get k d = Some v -> In (k, v) d.
Proof.
  induction d as [|[k' v'] d IH]; simpl; [discriminate|].
  destruct (keyb k k') eqn:E.
  - apply keyb_eq in E; subst. intros E; inversion E; auto.
  - auto.
Qed.

Lemma dict_sub_refl (d : dict K V) : dict_sub py_eq d d = true.
Proof.
  unfold dict_sub. apply forallb_forall. intros [k v] HIn; simpl.
  destruct (dict_get_In _ _ _ HIn) as [v' ->]. apply py_eq_refl.
Qed.

Lemma dict_sub_trans (d1 d2 d3 : dict K V) :
  dict_sub py_eq d1 d2 = true -> dict_sub py_eq d2 d3 = true ->
  dict_sub py_eq d1 d3 = true.
Proof.
  unfold dict_sub. rewrite !forallb_forall. intros H12 H23 [k v] HIn.
  specialize (H12 _ HIn); simpl in *.
  destruct (dict_get k d1) as [v1|]; [|discriminate].
  destruct (dict_get k d2) as [v2|] eqn:E2; [|discriminate].
  specialize (H23 _ (dict_get_Some _ _ E2)); simpl in H23.
  rewrite E2 in H23.
  destruct (dict_get k d3) as [v3|]; [|discriminate].
  eapply py_eq_trans; eauto.
Qed.

Lemma PyEqLaws_dict : PyEqLaws (dict K V).
Proof.
  split; unfold py_eq, PyEq_dict, dict_eqb.
  - intros d. rewrite Nat.eqb_refl, dict_sub_refl. reflexivity.
  - intros d1 d2. rewrite (Nat.eqb_sym (List.length d1)).
    rewrite <- !andb_assoc. f_equal. apply andb_comm.
  - intros d1 d2 d3. rewrite !andb_true_iff, !Nat.eqb_eq.
    intros [[L12 S12] S21] [[L23 S23] S32].
    repeat split; [congruence | |]; eapply dict_sub_trans; eauto.
Qed.

#[global] Existing Instance PyEqLaws_dict.
End DictLaws.

Lemma PyEqLaws_idxs : PyEqLaws idxs.
Proof.
  split; change (@py_eq idxs _) with idxs_eqb.
  - intros [l|n]; simpl; [apply py_eq_refl | apply Z.eqb_refl].
  - intros [l|n] [l'|n']; simpl; auto using Z.eqb_sym.
    apply py_eq_sym.
  - intros [l|n] [l'|n'] [l''|n'']; simpl; try discriminate.
    + apply py_eq_trans.
    + rewrite !Z.eqb_eq; congruence.
Qed.

#[global] Existing Instance PyEqLaws_idxs.

Lemma PyEqLaws_NtextCell : PyEqLaws NtextCell.
Proof.
  split; change (@py_eq NtextCell _) with NtextCell_eqb; unfold NtextCell_eqb.
  - intros c. rewrite !py_eq_refl. reflexivity.
  - intros c c'.
    rewrite (py_eq_sym (cell_source c)), (py_eq_sym (cell_target c)).
    reflexivity.
  - intros c c' c''. rewrite !andb_true_iff.
    intros [? ?] [? ?]; split; eapply py_eq_trans; eauto.
Qed.

#[global] Existing Instance PyEqLaws_NtextCell.

Lemma PyEqLaws_cellsval : PyEqLaws cellsval.
Proof.
  split; change (@py_eq cellsval _) with cellsval_eqb.
  - intros [n|l]; simpl; [apply Z.eqb_refl | apply py_eq_refl].
  - intros [n|l] [n'|l']; simpl; auto using Z.eqb_sym.
    apply py_eq_sym.
  - intros [n|l] [n'|l'] [n''|l'']; simpl; try discriminate.
    + rewrite !Z.eqb_eq; congruence.
    + apply py_eq_trans.
Qed.

#[global] Existing Instance PyEqLaws_cellsval.

Lemma PyEqLaws_inventory : PyEqLaws inventory.
Proof.
  split; change (@py_eq inventory _) with inventory_eqb.
  - intros [a|d]; simpl; [apply String.eqb_refl | apply py_eq_refl].
  - intros [a|d] [a'|d']; simpl; auto using String.eqb_sym.
    apply py_eq_sym.
  - intros [a|d] [a'|d'] [a''|d'']; simpl; try discriminate.
    + rewrite !String.eqb_eq; congruence.
    + apply py_eq_trans.
Qed.

#[global] Existing Instance PyEqLaws_inventory.

(** Induction on a diagram through its two boundaries. *)
Lemma Ntext_boundary_ind (P : Ntext -> Prop) :
  (forall c d s t sm tm,
      (forall x, s = Some x -> P x) -> (forall x, t = Some x -> P x) ->
      P (mkNtext c d s t sm tm)) ->
  forall a, P a.
Proof.
  intros step.
  assert (below : forall o : option Ntext,
             match o with Some x => P x | None => True end ->
             forall x, o = Some x -> P x).
  { intros [y|] Hy x E; [injection E as <-; exact Hy | discriminate]. }
  fix IH 1.
  intros [c d s t sm tm]. apply step; apply below.
  - destruct s as [y|]; [apply IH | exact I].
  - destruct t as [y|]; [apply IH | exact I].
Qed.

Lemma Ntext_eqb_unfold (a b : Ntext) :
  Ntext_eqb a b =
  py_eq (cells a) (cells b) && (dim a =? dim b)
  && option_eqb Ntext_eqb (source a) (source b)
  && option_eqb Ntext_eqb (target a) (target b)
  && py_eq (smap a) (smap b) && py_eq (tmap a) (tmap b).
Proof. destruct a, b; reflexivity. Qed.

Lemma Ntext_eqb_refl (a : Ntext) : Ntext_eqb a a = true.
Proof.
  induction a as [c d s t sm tm IHs IHt] using Ntext_boundary_ind.
  rewrite Ntext_eqb_unfold; simpl.
  rewrite !py_eq_refl, Z.eqb_refl; simpl.
  destruct s as [x|], t as [y|]; simpl;
    rewrite ?(IHs _ eq_refl), ?(IHt _ eq_refl); auto.
Qed.

Lemma Ntext_eqb_sym (a b : Ntext) : Ntext_eqb a b = Ntext_eqb b a.
Proof.
  revert b.
  induction a as [c d s t sm tm IHs IHt] using Ntext_boundary_ind.
  intros [c' d' s' t' sm' tm']. rewrite !Ntext_eqb_unfold; simpl.
  rewrite (py_eq_sym c), (Z.eqb_sym d), (py_eq_sym sm), (py_eq_sym tm).
  f_equal. f_equal. f_equal; [f_equal|].
  - destruct s as [x|], s' as [x'|]; simpl; auto.
  - destruct t as [y|], t' as [y'|]; simpl; auto.
Qed.

Lemma Ntext_eqb_trans (a b c : Ntext) :
  Ntext_eqb a b = true -> Ntext_eqb b c = true -> Ntext_eqb a c = true.
Proof.
  revert b c.
  induction a as [c1 d1 s1 t1 sm1 tm1 IHs IHt] using Ntext_boundary_ind.
  intros [c2 d2 s2 t2 sm2 tm2] [c3 d3 s3 t3 sm3 tm3].
  rewrite !Ntext_eqb_unfold; simpl. rewrite !andb_true_iff, !Z.eqb_eq.
  intros [[[[[Hc Hd] Hs] Ht] Hsm] Htm] [[[[[Hc' Hd'] Hs'] Ht'] Hsm'] Htm'].
  repeat split.
  - eapply py_eq_trans; eauto.
  - congruence.
  - destruct s1, s2, s3; simpl in *; try discriminate; auto;
      eapply (IHs _ eq_refl); eauto.
  - destruct t1, t2, t3; simpl in *; try discriminate; auto;
      eapply (IHt _ eq_refl); eauto.
  - eapply py_eq_trans; eauto.
  - eapply py_eq_trans; eauto.
Qed.

Lemma PyEqLaws_Ntext : PyEqLaws Ntext.
Proof.
  split; [apply Ntext_eqb_refl | apply Ntext_eqb_sym | apply Ntext_eqb_trans].
Qed.

#[global] Existing Instance PyEqLaws_Ntext.

(** * What the constructors return *)

Lemma compatible_true (s t : Ntext) :
  compatible s t = Ok true <->
  py_eq (source s) (source t) = true
  /\ py_eq (target s) (target t) = true
  /\ dim s = dim t.
Proof.
  unfold compatible.
  destruct (py_eq (source s) (source t)); simpl;
    [|split; [discriminate | intros (? & _); discriminate]].
  destruct (py_eq (target s) (target t)); simpl;
    [|split; [discriminate | intros (_ & ? & _); discriminate]].
  destruct (Z.eqb_spec (dim s) (dim t)); split; auto; try discriminate.
  intros (_ & _ & ?); contradiction.
Qed.

Lemma compatible_refl (d : Ntext) : compatible d d = Ok true.
Proof. apply compatible_true. rewrite !py_eq_refl. auto. Qed.

Lemma icell_inv (d r : Ntext) :
  icell d = Ok r ->
  dim r = dim d + 1 /\ source r = Some d /\ target r = Some d
  /\ tmap r = smap r.
Proof.
  unfold icell. intros H. bind_inv H. destruct a as [c sm].
  inversion H; subst; simpl. auto.
Qed.

Lemma _ncell_inv (name : string) (s t r : Ntext) :
  _ncell name s t = Ok r ->
  dim r = dim s + 1 /\ source r = Some s /\ target r = Some t.
Proof.
  unfold _ncell. intros H. bind_inv H.
  inversion H; subst; simpl. auto.
Qed.

Lemma ncell_inv (name : string) (s t r : Ntext) :
  ncell name s t = Ok r ->
  compatible s t = Ok true
  /\ dim r = dim s + 1 /\ source r = Some s /\ target r = Some t.
Proof.
  unfold ncell. intros H. bind_inv H. destruct a; simpl in H;
    [|discriminate].
  split; [assumption | eapply _ncell_inv; eassumption].
Qed.

(** What a positive answer of [composable] at relative dimension 0 says,
    when a table is filled. *)
Lemma composable_vertical_true (dst src : Ntext) (m : refmap)
  (m' : option refmap) :
  composable dst src 0 (Some m) = Ok (true, m') ->
  dim dst = dim src
  /\ py_eq (source src) (target dst) = true
  /\ smap src <> None.
Proof.
  unfold composable.
  destruct (Z.eqb_spec (dim dst) (dim src)) as [E|E]; simpl;
    [|discriminate].
  destruct (smap src) as [sm|]; simpl; [|discriminate].
  intros H. bind_inv H. inversion H; subst.
  repeat split; auto; discriminate.
Qed.

Lemma globular_dim_nonneg (d : Ntext) : globular d -> 0 <= dim d.
Proof. induction 1; simpl; lia. Qed.

Lemma globular_dim_0 (d : Ntext) :
  globular d -> dim d = 0 -> exists name, d = zcell name.
Proof.
  destruct 1 as [name|c s t sm tm Hs Ht Hc]; simpl; [eauto|].
  apply globular_dim_nonneg in Hs. lia.
Qed.

Lemma globular_dim_pos (d : Ntext) :
  globular d -> 1 <= dim d ->
  exists s t,
    source d = Some s /\ target d = Some t /\ dim d = dim s + 1
    /\ globular s /\ globular t /\ compatible s t = Ok true.
Proof.
  destruct 1 as [name|c s t sm tm Hs Ht Hc]; simpl; [lia|].
  intros _. exists s, t. auto 10.
Qed.

Lemma globular_of_fields (r s t : Ntext) :
  dim r = dim s + 1 -> source r = Some s -> target r = Some t ->
  globular s -> globular t -> compatible s t = Ok true ->
  globular r.
Proof.
  destruct r as [c d s' t' sm tm]; simpl. intros -> -> ->.
  apply globular_cell.
Qed.

Lemma globular_compose (dst src : Ntext) (n : nat) (mapping : option refmap)
  (r : Ntext) (m : refmap) (dst' : Ntext) :
  globular dst -> globular src ->
  compose src n mapping dst = (Ok (Some r, m), dst') ->
  globular r.
Proof.
  intros Hdst Hsrc Hc.
  destruct n as [|n]; [|exfalso; eapply compose_lower_raises; eassumption].
  apply compose_vertical_inv in Hc.
  destruct Hc as (m0 & m1 & tm & Hc & _ & _ & ->).
  apply composable_vertical_true in Hc. destruct Hc as (Hdim & Heq & Hsm).
  assert (Hpos : 1 <= dim dst).
  { destruct (Z_lt_le_dec (dim dst) 1) as [Hlt|]; [exfalso|assumption].
    pose proof (globular_dim_nonneg Hsrc).
    destruct (globular_dim_0 Hsrc) as [name ->]; [lia|].
    apply Hsm. reflexivity. }
  destruct (globular_dim_pos Hdst Hpos)
    as (ds & dt & Es & Et & Ed & Hds & Hdt & Hcd).
  destruct (globular_dim_pos Hsrc) as (ss & st & Es' & Et' & Ed' & Hss & Hst & Hcs);
    [lia|].
  rewrite Es', Et in Heq.
  change (Ntext_eqb ss dt = true) in Heq.
  rewrite Ntext_eqb_unfold, !andb_true_iff, Z.eqb_eq in Heq.
  destruct Heq as [[[[[_ Hd] Hs] Ht] _] _].
  apply compatible_true in Hcd. destruct Hcd as (Hcd1 & Hcd2 & Hcd3).
  apply compatible_true in Hcs. destruct Hcs as (Hcs1 & Hcs2 & Hcs3).
  eapply globular_of_fields with (s := ds) (t := st); simpl; auto.
  apply compatible_true. repeat split.
  - apply py_eq_trans with (source dt); [assumption|].
    apply py_eq_trans with (source ss); [|assumption].
    rewrite py_eq_sym. exact Hs.
  - apply py_eq_trans with (target dt); [assumption|].
    apply py_eq_trans with (target ss); [|assumption].
    rewrite py_eq_sym. exact Ht.
  - congruence.
Qed.

(** ** Counters in the inventories *)

Section DictFacts.
Context {K V : Type} `{KeyLaws K}.

Lemma keyb_refl (k : K) : keyb k k = true.
Proof. apply keyb_eq. reflexivity. Qed.

Lemma keyb_neq (k k' : K) : k <> k' -> keyb k k' = false.
Proof.
  intros Hn. destruct (keyb k k') eqn:E; [|reflexivity].
  apply keyb_eq in E. contradiction.
Qed.

Lemma dict_get_set_same (k : K) (v : V) (d : dict K V) :
  dict_get k (dict_set k v d) = Some v.
Proof.
  induction d as [|[k' v'] d IH]; simpl.
  - rewrite keyb_refl. reflexivity.
  - destruct (keyb k k') eqn:E; simpl; rewrite E; auto.
Qed.

Lemma dict_get_set_other (k k' : K) (v : V) (d : dict K V) :
  k <> k' -> dict_get k' (dict_set k v d) = dict_get k' d.
Proof.
  intros Hn. induction d as [|[k0 v0] d IH]; simpl.
  - rewrite keyb_neq; auto.
  - destruct (keyb k k0) eqn:E; simpl.
    + apply keyb_eq in E. subst k0.
      rewrite (keyb_neq (k := k') (k' := k)) by congruence. reflexivity.
    + rewrite IH. reflexivity.
Qed.

End DictFacts.

Lemma for_eachM_invariant {A S T : Type} (P : S -> Prop)
  (body : A -> T -> M S T) :
  (forall a t s, P s -> P (snd (body a t s))) ->
  forall l t s, P s -> P (snd (for_eachM l body t s)).
Proof.
  intros Hb l. induction l as [|a l IH]; intros t s Hs; simpl; [assumption|].
  unfold bindM. specialize (Hb a t s Hs).
  destruct (body a t s) as [[t'|e] s']; simpl in *; auto.
Qed.

Lemma bindM_invariant {S A B : Type} (P : S -> Prop) (m : M S A)
  (k : A -> M S B) :
  (forall s, P s -> P (snd (m s))) ->
  (forall a s, P s -> P (snd (k a s))) ->
  forall s, P s -> P (snd (bindM m k s)).
Proof.
  intros Hm Hk s Hs. unfold bindM. specialize (Hm s Hs).
  destruct (m s) as [[a|e] s']; simpl in *; auto.
Qed.

Lemma for_each_Ok_In {A S : Type} (body : A -> S -> result S) (l : list A)
  (s s' : S) (a : A) :
  for_each l body s = Ok s' -> In a l -> exists s1 s2, body a s1 = Ok s2.
Proof.
  revert s. induction l as [|b l IH]; intros s H HIn; [contradiction|].
  simpl in H. bind_inv H. destruct HIn as [->|HIn]; eauto.
Qed.

Lemma for_each_Raise {A S : Type} (body : A -> S -> result S) (l : list A)
  (s : S) (e : exn) :
  for_each l body s = Raise e -> exists a s1, In a l /\ body a s1 = Raise e.
Proof.
  revert s. induction l as [|b l IH]; intros s H; [discriminate|].
  simpl in H. destruct (body b s) as [s'|e'] eqn:E; simpl in H.
  - destruct (IH _ H) as (a & s1 & HIn & Ha). exists a, s1. split; [right|]; auto.
  - inversion H; subst. exists b, s. split; [left|]; auto.
Qed.

Lemma allocate_le (name : string) (todo : list Z) (m : refmap) (c : Z) :
  c <= snd (allocate name todo m c).
Proof.
  revert m c. induction todo as [|i todo IH]; intros m c; simpl; [lia|].
  destruct (dict_mem (name, i) m); [apply IH|].
  eapply Z.le_trans; [|apply IH]. lia.
Qed.

Lemma counter_survives (name k : string) (v : Z) (x : cellsval)
  (d : dict string cellsval) :
  k <> name -> dict_get k d = Some (CCount v) ->
  dict_get k (dict_set name x d) = Some (CCount v).
Proof. intros Hn Hk. rewrite dict_get_set_other; auto. Qed.

Lemma pre_stitch_item_counter (nmaps : string * cellsval) (m : refmap)
  (dst : inventory) :
  has_counter dst -> has_counter (snd (pre_stitch_item nmaps m dst)).
Proof.
  destruct nmaps as [name maps]. destruct dst as [a|d]; simpl; [tauto|].
  intros (k & v & Hk & Hv).
  destruct (string_dec k name) as [->|Hn].
  - rewrite Hk. destruct maps as [len|maps'].
    + pose proof (allocate_le name (range_list 0 len) m v) as Hle.
      destruct (allocate name (range_list 0 len) m v) as [m' c'].
      simpl in *. exists name, c'. rewrite dict_get_set_same. split; [auto|lia].
    + destruct v; simpl; try lia; exists name; eauto.
  - destruct maps as [len|maps'].
    + destruct (dict_get name d) as [[c|l]|].
      * destruct (allocate _ _ _ _) as [m' c']. simpl.
        exists k, v. split; [|assumption].
        apply counter_survives; auto.
        destruct (c =? 0); auto using counter_survives.
      * destruct (forallb _ _); simpl; eauto.
      * destruct (allocate _ _ _ _) as [m' c']. simpl.
        exists k, v. split; [|assumption].
        auto using counter_survives.
    + destruct (dict_get name d) as [[c|l]|].
      * destruct c; simpl; eauto.
        destruct (allocate _ _ _ _) as [m' c']. simpl.
        exists k, v. split; [|assumption].
        auto using counter_survives.
      * destruct (allocate _ _ _ _) as [m' c']. simpl.
        exists k, v. split; [|assumption].
        apply counter_survives; auto.
        destruct l; auto using counter_survives.
      * destruct (allocate _ _ _ _) as [m' c']. simpl.
        exists k, v. split; [|assumption].
        auto using counter_survives.
Qed.

Lemma stitch_cell_counter (m : refmap) (name : string)
  (ic : Z * option NtextCell) (u : unit) (dst : inventory) :
  has_counter dst -> has_counter (snd (stitch_cell m name ic u dst)).
Proof.
  destruct ic as [i cell]. unfold stitch_cell.
  destruct (dict_item (name, i) m) as [r|e]; simpl; [|auto].
  destruct (is_new r); simpl; [|auto].
  destruct dst as [a|d]; simpl; [tauto|].
  intros (k & v & Hk & Hv). unfold dict_item.
  destruct (dict_get name d) as [[c|l]|] eqn:E; simpl; eauto.
  assert (Hn : k <> name) by congruence.
  destruct (py_index l (index r)) as [[old|]|e]; simpl; eauto.
  destruct (deref cell) as [c|e]; simpl; eauto.
  destruct (translate m (cell_source c)) as [s'|e]; simpl; eauto.
  destruct (translate m (cell_target c)) as [t'|e]; simpl; eauto.
  destruct (py_setitem l (index r) _) as [l'|e]; simpl; eauto.
  exists k, v. split; [|assumption]. apply counter_survives; auto.
Qed.

Lemma stitch_item_counter (m : refmap) (nmaps : string * cellsval) (u : unit)
  (dst : inventory) :
  has_counter dst -> has_counter (snd (stitch_item m nmaps u dst)).
Proof.
  destruct nmaps as [name [len|maps']]; simpl; [auto|].
  apply bindM_invariant.
  - intros s Hs; simpl; assumption.
  - intros _ s Hs. apply for_eachM_invariant; auto using stitch_cell_counter.
Qed.

Lemma stitch_counter (src : inventory) (m : refmap) (dst : inventory) :
  has_counter dst -> has_counter (snd (stitch src m dst)).
Proof.
  unfold stitch, pre_stitch.
  repeat (apply bindM_invariant; [|intros ? ?]); simpl; auto;
    apply for_eachM_invariant;
    auto using pre_stitch_item_counter, stitch_item_counter.
Qed.

Lemma icell_shallow (d r : Ntext) :
  shallow d -> icell d = Ok r -> exists name, d = zcell name.
Proof.
  destruct 1 as [name|c a b sm tm Hc]; [eauto|].
  unfold icell; simpl. intros H. bind_inv H. exfalso.
  destruct c as [x|c]; [discriminate|]. bind_inv Ha.
  destruct Hc as (k & v & Hk & _).
  apply dict_get_Some in Hk.
  destruct (for_each_Ok_In _ _ _ _ Ha0 Hk) as (s1 & s2 & Hb).
  discriminate.
Qed.

Lemma _ncell_generators_shallow (name sn tn : string) (r : Ntext) :
  _ncell name (zcell sn) (zcell tn) = Ok r -> shallow r.
Proof.
  unfold _ncell; simpl; unfold keyb, Key_string.
  destruct (String.eqb sn name) eqn:E1; simpl; unfold keyb, Key_string;
    destruct (String.eqb tn name) eqn:E2; simpl; unfold keyb, Key_string;
    try rewrite E1; simpl;
    destruct (String.eqb tn sn) eqn:E3; simpl;
    try discriminate;
    intros H; inversion H; subst; clear H;
    apply shallow_cell; exists tn; eexists; simpl; unfold keyb, Key_string;
    rewrite ?E1, ?E2, ?E3, ?String.eqb_refl; simpl;
    try (split; [reflexivity | lia]).
  all: rewrite ?String.eqb_eq, ?String.eqb_neq in *; subst; congruence.
Qed.

Lemma _ncell_cell_raises (name : string) (s t : Ntext) :
  shallow s -> 1 <= dim s -> _ncell name s t = Raise TypeError.
Proof.
  destruct 1 as [x|c a b sm tm Hc]; simpl; [lia|]. intros _.
  unfold _ncell; simpl.
  destruct c as [x|c]; [contradiction|]. simpl.
  destruct Hc as (k & v & Hk & _). apply dict_get_Some in Hk.
  destruct (for_each c ncell_copy_source _) as [st|e] eqn:E; simpl.
  - destruct (for_each_Ok_In _ _ _ _ E Hk) as (s1 & s2 & Hb). discriminate.
  - apply for_each_Raise in E. destruct E as ([n [x|l]] & s1 & _ & Hb);
      simpl in Hb; [inversion Hb; reflexivity | discriminate].
Qed.

Lemma icell_cell_raises (d : Ntext) :
  shallow d -> 1 <= dim d -> icell d = Raise TypeError.
Proof.
  destruct 1 as [x|c a b sm tm Hc]; simpl; [lia|]. intros _.
  unfold icell; simpl.
  destruct c as [x|c]; [contradiction|]. simpl.
  destruct Hc as (k & v & Hk & _). apply dict_get_Some in Hk.
  destruct (for_each c _ _) as [st|e] eqn:E; simpl.
  - destruct (for_each_Ok_In _ _ _ _ E Hk) as (s1 & s2 & Hb). discriminate.
  - apply for_each_Raise in E. destruct E as ([n [x|l]] & s1 & _ & Hb);
      simpl in Hb; [inversion Hb; reflexivity | discriminate].
Qed.

(** What a vertical composition leaves in [dst], whatever its outcome. *)
Lemma compose_vertical_state (src : Ntext) (mapping : option refmap)
  (dst : Ntext) :
  snd (compose src 0 mapping dst) = dst
  \/ exists m0,
       snd (compose src 0 mapping dst)
       = set_cells (snd (stitch (cells src) m0 (cells dst))) dst.
Proof.
  simpl.
  destruct (composable dst src 0 _) as [[c m']|e]; [|auto].
  destruct c; simpl; [|auto].
  right.
  exists (match m' with
          | None => match mapping with None => [] | Some m => m end
          | Some m => m
          end).
  destruct (stitch _ _ _) as [[m1|e] ntext]; simpl; [|reflexivity].
  destruct (bind _ _) as [tm|e]; reflexivity.
Qed.

Lemma compose_on_generator (src : Ntext) (n : nat) (name : string)
  (mapping : option refmap) :
  shallow src ->
  snd (compose src n mapping (zcell name)) = zcell name
  /\ forall r m, fst (compose src n mapping (zcell name)) <> Ok (Some r, m).
Proof.
  intros Hs.
  assert (Hc : forall m, exists o,
               composable (zcell name) src n (Some m) = o
               /\ forall m', o <> Ok (true, m')).
  { intros m. eexists; split; [reflexivity|].
    unfold composable.
    destruct Hs as [x|c a b sm tm Hc]; simpl; [|discriminate].
    destruct n; simpl; discriminate. }
  destruct n as [|n]; simpl;
    destruct (Hc (match mapping with None => [] | Some m => m end))
      as (o & -> & Ho);
    destruct o as [[[|] m']|e]; simpl; try (split; [reflexivity|discriminate]);
    exfalso; eapply Ho; reflexivity.
Qed.

Lemma compose_lower_state (src : Ntext) (n : nat) (mapping : option refmap)
  (dst : Ntext) :
  shallow dst -> shallow src ->
  snd (compose src (S n) mapping dst) = dst
  \/ exists m0,
       snd (compose src (S n) mapping dst)
       = set_cells (snd (stitch (cells src) m0 (cells dst))) dst.
Proof.
  intros Hdst Hsrc.
  destruct Hdst as [x|c a b sm tm Hc];
    [left; apply compose_on_generator; assumption|].
  destruct Hsrc as [x'|c' a' b' sm' tm' Hc'].
  - left. reflexivity.
  - simpl.
    destruct (composable _ _ _ _) as [[k m']|e]; [|auto].
    destruct k; simpl; [|auto].
    right.
    exists (match m' with
            | None => match mapping with None => [] | Some m => m end
            | Some m => m
            end).
    destruct (stitch _ _ _) as [[m1|e] ntext]; simpl; [|reflexivity].
    destruct (compose_on_generator n a (Some []) (shallow_generator a'))
      as [Hst Hno].
    destruct (compose (zcell a') n (Some []) (zcell a))
      as [[[[r|] m]|e] d'']; simpl in *; subst d''; try reflexivity.
    exfalso. eapply Hno. reflexivity.
Qed.

Lemma compose_state (src : Ntext) (n : nat) (mapping : option refmap)
  (dst : Ntext) :
  shallow dst -> shallow src ->
  snd (compose src n mapping dst) = dst
  \/ exists m0,
       snd (compose src n mapping dst)
       = set_cells (snd (stitch (cells src) m0 (cells dst))) dst.
Proof.
  destruct n; [intros _ _; apply compose_vertical_state|].
  apply compose_lower_state.
Qed.

Lemma shallow_stitched (src : inventory) (m0 : refmap) (dst : Ntext) :
  shallow dst -> 1 <= dim dst ->
  shallow (set_cells (snd (stitch src m0 (cells dst))) dst).
Proof.
  destruct 1 as [x|c a b sm tm Hc]; simpl; [lia|]. intros _.
  apply shallow_cell. apply stitch_counter. assumption.
Qed.

(** The constructors and composition only produce generators and diagrams
    of dimension 1. *)
Lemma built_shallow (d : Ntext) : built d -> shallow d.
Proof.
  induction 1 as [name | d r Hd IH Hi | name s t r Hs IHs Ht IHt Hn
                 | dst src n mapping r m dst' Hdst IHdst Hsrc IHsrc Hc
                 | dst src n mapping Hdst IHdst Hsrc IHsrc
                 | d s Hd IH Es | d t Hd IH Et].
  - constructor.
  - destruct (icell_shallow IH Hi) as [name ->].
    inversion Hi; subst. apply shallow_cell.
    exists name, 1. simpl. unfold keyb, Key_string.
    rewrite String.eqb_refl. split; [reflexivity | lia].
  - pose proof (ncell_inv _ _ _ Hn) as (Hc & _).
    pose proof (proj1 (compatible_true _ _) Hc) as (_ & _ & Hd).
    unfold ncell in Hn. rewrite Hc in Hn. simpl in Hn.
    destruct IHs as [sn|c a b sm tm Hcnt].
    + destruct IHt as [tn|c' a' b' sm' tm' Hcnt']; [|discriminate].
      eapply _ncell_generators_shallow; eassumption.
    + rewrite _ncell_cell_raises in Hn; [discriminate | | simpl; lia].
      constructor; assumption.
  - destruct n as [|n]; [|exfalso; eapply compose_lower_raises; eassumption].
    apply compose_vertical_inv in Hc.
    destruct Hc as (m0 & m1 & tm & Hc & Hst & _ & ->).
    apply composable_vertical_true in Hc. destruct Hc as (Hdim & _ & Hsm).
    destruct IHdst as [x|c a b sm tm' Hcnt];
      destruct IHsrc as [x'|c' a' b' sm' tm'' Hcnt']; simpl in *;
      try discriminate; try (exfalso; apply Hsm; reflexivity).
    apply shallow_cell.
    replace (cells dst') with (snd (stitch c' m1 c)) by (rewrite Hst; reflexivity).
    apply stitch_counter. assumption.
  - destruct IHdst as [x|c a b sm tm Hcnt].
    + rewrite (proj1 (compose_on_generator n x mapping IHsrc)). constructor.
    + assert (Hsh : shallow (mkNtext c 1 (Some (zcell a)) (Some (zcell b))
                                 sm tm)) by (constructor; assumption).
      destruct (compose_state n mapping Hsh IHsrc) as [->|[m0 ->]];
        [assumption|].
      apply shallow_stitched; [assumption | simpl; lia].
  - destruct IH as [name|c a b sm tm Hc]; simpl in Es; [discriminate|].
    injection Es as <-. constructor.
  - destruct IH as [name|c a b sm tm Hc]; simpl in Et; [discriminate|].
    injection Et as <-. constructor.
Qed.

Lemma shallow_globular (d : Ntext) : shallow d -> globular d.
Proof.
  destruct 1 as [name|c a b sm tm Hc]; [constructor|].
  change 1 with (dim (zcell a) + 1).
  constructor; constructor.
Qed.

(** [globular] is preserved by every way of obtaining a diagram. *)
Lemma built_globular (d : Ntext) : built d -> globular d.
Proof.
  induction 1 as [name | d r Hd IH Hi | name s t r Hs IHs Ht IHt Hn
                 | dst src n mapping r m dst' Hdst IHdst Hsrc IHsrc Hc
                 | dst src n mapping Hdst IHdst Hsrc IHsrc
                 | d s Hd IH Es | d t Hd IH Et].
  - constructor.
  - apply icell_inv in Hi. destruct Hi as (Ed & Es & Et & _).
    eapply globular_of_fields; eauto using compatible_refl.
  - apply ncell_inv in Hn. destruct Hn as (Hc & Ed & Es & Et).
    eapply globular_of_fields; eauto.
  - eapply globular_compose; [exact IHdst | exact IHsrc | exact Hc].
  - apply shallow_globular, built_shallow.
    apply built_in_place; assumption.
  - destruct IH as [name|c s' t' sm tm Hs' Ht' Hc]; simpl in Es;
      [discriminate | congruence].
  - destruct IH as [name|c s' t' sm tm Hs' Ht' Hc]; simpl in Et;
      [discriminate | congruence].
Qed.

(** No diagram of dimension 2 or more can be obtained. *)
Lemma built_dim (d : Ntext) : built d -> dim d = 0 \/ dim d = 1.
Proof.
  intros H. apply built_shallow in H. destruct H; simpl; auto.
Qed.

(** On the 1-cells that can be obtained, [icell] and [ncell] raise. *)
Lemma icell_on_built_cells_raises (d : Ntext) :
  built d -> 1 <= dim d -> icell d = Raise TypeError.
Proof. intros H. apply icell_cell_raises, built_shallow, H. Qed.

Lemma ncell_on_built_cells_raises (name : string) (s t : Ntext) :
  built s -> 1 <= dim s -> compatible s t = Ok true ->
  ncell name s t = Raise TypeError.
Proof.
  intros H Hd Hc. unfold ncell. rewrite Hc; simpl.
  apply _ncell_cell_raises; [apply built_shallow, H | assumption].
Qed.

(** * Composition against composability *)

(** C1.  [compose] does not follow [composable]: on the identity on [x] and
    [g : y -> x], [composable] answers [False] while [compose] raises
    [KeyError] from the table-filling loop; on two diagrams of dimension 2
    that are composable along dimension 1, [compose] raises
    [UnboundLocalError] instead of returning; and along dimension 1 on
    diagrams of dimension 1 both raise [TypeError]. *)
Theorem compose_does_not_follow_composable :
  Ntext_composable id_x cell_g 0 = Ok false
  /\ compose cell_g 0 None id_x = (Raise KeyError, id_x)
  /\ Ntext_composable bare_2 bare_2 1 = Ok true
  /\ compose bare_2 1 None bare_2 = (Raise UnboundLocalError, bare_2)
  /\ Ntext_composable id_x id_x 1 = Raise TypeError
  /\ compose id_x 1 None id_x = (Raise TypeError, id_x).
Proof. repeat split. Qed.

(** C2.  [ncell] on a compatible pair of 1-cells raises [TypeError]: the
    first loop of [_ncell] iterates over the counter bound to ["x"]. *)
Theorem ncell_on_cells_raises_TypeError :
  compatible cell_f cell_f = Ok true
  /\ ncell "a" cell_f cell_f = Raise TypeError.
Proof. split; reflexivity. Qed.

(** C3, as stated, fails: after the successful composition of the identity
    on [x] with [f], the inventory of [dst] is no longer [{"x": 1}]. *)
Lemma compose_success_changes_dst :
  exists m dst',
    compose cell_f 0 None id_x = (Ok (Some id_x_then_f, m), dst')
    /\ cells id_x = Indexed [("x", CCount 1)]
    /\ cells dst' = cells id_x_then_f
    /\ dst' <> id_x.
Proof.
  do 2 eexists. split; [reflexivity|]. repeat split. discriminate.
Qed.

(** C3, amended.  A vertical composition (relative dimension 0) that returns
    a diagram stitches into the inventory of [dst] itself, which is the
    inventory of the diagram returned, and leaves the other attributes of
    [dst] as they were.  A composition that answers [(None, False)], at any
    relative dimension, leaves [dst] as it was. *)
Theorem compose_stitches_in_place (src : Ntext) (n : nat)
  (mapping : option refmap) (dst : Ntext) (m : refmap) (dst' : Ntext) :
  (forall r,
      compose src 0 mapping dst = (Ok (Some r, m), dst') ->
      (exists m0, stitch (cells src) m0 (cells dst) = (Ok m, cells dst'))
      /\ cells r = cells dst'
      /\ dim dst' = dim dst /\ source dst' = source dst
      /\ target dst' = target dst /\ smap dst' = smap dst
      /\ tmap dst' = tmap dst)
  /\ (compose src n mapping dst = (Ok (None, m), dst') -> dst' = dst).
Proof.
  split.
  - intros r H. simpl in H.
    destruct (composable dst src 0 _) as [[c m']|e]; [|discriminate].
    destruct c; simpl in H; [|discriminate].
    destruct (stitch _ _ _) as [[m1|e] ntext] eqn:Est; [|discriminate].
    destruct (bind _ _) as [tm|e]; [|discriminate].
    inversion H; subst; clear H; simpl.
    split; [eexists; eassumption | auto 10].
  - destruct n as [|n]; simpl.
    + destruct (composable dst src 0 _) as [[c m']|e]; [|discriminate].
      destruct c; simpl; [|intros H; inversion H; reflexivity].
      destruct (stitch _ _ _) as [[m1|e] ntext]; [|discriminate].
      destruct (bind _ _) as [tm|e]; discriminate.
    + repeat (head_case; simpl; try discriminate).
      intros H; inversion H; reflexivity.
Qed.

Lemma compose_stitches_in_place_witness :
  compose cell_f 0 None id_x
  = (Ok (Some id_x_then_f, table_x_f), set_cells (cells id_x_then_f) id_x)
  /\ cells id_x_then_f = cells (set_cells (cells id_x_then_f) id_x)
  /\ source (set_cells (cells id_x_then_f) id_x) = source id_x
  /\ smap (set_cells (cells id_x_then_f) id_x) = smap id_x.
Proof.
  split; [reflexivity|].
  destruct (compose_stitches_in_place cell_f 0 None id_x table_x_f
              (set_cells (cells id_x_then_f) id_x)) as [Hok _].
  destruct (Hok id_x_then_f eq_refl) as (_ & Hc & _ & Hs & _ & Hm & _).
  auto.
Defined.

(** * The identity law *)

(** C4.  With [x], [y] generators and [f = ncell("f", x, y)], the composer
    built from [f] starts from the identity on [x]; composing [f] at
    dimension 0 succeeds and the snapshot equals [f]. *)
Theorem left_identity_scenario :
  exists c c',
    ncell "f" (zcell "x") (zcell "y") = Ok cell_f
    /\ Composition_init cell_f = Ok c
    /\ icell (zcell "x") = Ok (_ntext c)
    /\ Composition_compose cell_f 0 c = (Ok tt, c')
    /\ py_eq (Composition_ntext c') cell_f = true.
Proof. do 2 eexists. repeat split. Qed.

(** C6.  The second scenario raises [KeyError], not [NotComposable]:
    [composable] looks up ["y"] in the target map of the identity on [x]
    before it compares the faces.  Without a table, as the method
    [Ntext.composable] calls it, the answer is [False]; along dimension 1
    the method raises [TypeError], from [get_face]. *)
Theorem scenario_two_raises_KeyError :
  ncell "g" (zcell "y") (zcell "x") = Ok cell_g
  /\ Composition_init cell_f = Ok (mkComposition id_x)
  /\ Composition_compose cell_g 0 (mkComposition id_x)
     = (Raise KeyError, mkComposition id_x)
  /\ composable id_x cell_g 0 (Some []) = Raise KeyError
  /\ Ntext_composable id_x cell_g 0 = Ok false
  /\ Ntext_composable id_x cell_g 1 = Raise TypeError.
Proof. repeat split. Qed.

(** * Cells over generators *)

(** C5, as stated, fails: a 1-cell from [x] to [x] counts two occurrences
    of ["x"], and its target sits in slot 1, not in the slot 0 of its
    source. *)
Lemma same_name_takes_second_slot :
  exists r,
    ncell "f" (zcell "x") (zcell "x") = Ok r
    /\ cells r
       = Indexed
           [("f",
             CSeq [Some (mkNtextCell [("x", IList [0])] [("x", IList [1])])]);
            ("x", CCount 2)]
    /\ smap r = Some [("x", IList [0])]
    /\ tmap r = Some [("x", IList [1])]
    /\ tmap r <> smap r.
Proof. eexists. split; [reflexivity|]. repeat split. discriminate. Qed.

(** C5, amended.  For generators [sn], [tn] and a name that is neither, the
    new inventory binds [name] to the single new cell and counts the
    occurrences of the boundary names: one each, both in slot 0, when the
    names differ; two for the shared name, the source in slot 0 and the
    target in slot 1, when they are the same.  The maps of the new cell are
    [smap] and [tmap]. *)
Theorem ncell_generators (name sn tn : string) :
  name <> sn -> name <> tn ->
  ncell name (zcell sn) (zcell tn) = Ok (generator_cell name sn tn).
Proof.
  intros Hs Ht.
  assert (Esn : String.eqb sn name = false)
    by (apply String.eqb_neq; congruence).
  assert (Etn : String.eqb tn name = false)
    by (apply String.eqb_neq; congruence).
  unfold ncell, _ncell, generator_cell, target_slot; simpl.
  unfold keyb, Key_string. rewrite Esn; simpl.
  unfold keyb, Key_string. rewrite Etn; simpl.
  destruct (String.eqb tn sn); simpl; unfold keyb, Key_string;
    rewrite ?String.eqb_refl; reflexivity.
Qed.

Lemma ncell_generators_witness :
  ncell "f" (zcell "x") (zcell "y") = Ok (generator_cell "f" "x" "y")
  /\ generator_cell "f" "x" "y" = cell_f.
Proof.
  split; [|reflexivity].
  apply ncell_generators; discriminate.
Defined.

(** * Faces of identities *)

(** C7, as stated, fails in dimension 1: [icell(f)] raises [TypeError] on
    the counter bound to ["x"]; and for a diagram of dimension 1 on which
    [icell] returns, the face at relative dimension 1 is a face of the
    diagram, here the generator [x], not the diagram. *)
Lemma face_of_identity_fails_above_generators :
  icell cell_f = Raise TypeError
  /\ (exists i,
         icell bare_1 = Ok i
         /\ get_face i (Z.to_nat (dim bare_1)) 1 = Ok (Some gen_x, Some [])
         /\ get_face i (Z.to_nat (dim bare_1)) (-1) = Ok (Some gen_x, Some [])
         /\ py_eq gen_x bare_1 = false).
Proof. split; [reflexivity|]. eexists. repeat split. Qed.

(** C7, amended.  Whenever [icell(A)] returns, its face at relative
    dimension 0 is [A] on both sides, with the map of that side; for [A] of
    dimension 0 this is the face at relative dimension [A.dim]. *)
Theorem face_of_identity (A i : Ntext) (side : Z) :
  icell A = Ok i ->
  exists face m,
    get_face i 0 side = Ok (Some face, m)
    /\ py_eq face A = true
    /\ m = (if side <? 0 then smap i else tmap i)
    /\ (dim A = 0 ->
        get_face i (Z.to_nat (dim A)) side = Ok (Some face, m)).
Proof.
  intros H. apply icell_inv in H. destruct H as (_ & Es & Et & _).
  exists A, (if side <? 0 then smap i else tmap i).
  assert (E0 : get_face i 0 side
               = Ok (Some A, if side <? 0 then smap i else tmap i)).
  { simpl. rewrite Es, Et. destruct (side <? 0); reflexivity. }
  repeat split; auto.
  - apply py_eq_refl.
  - intros ->. exact E0.
Qed.

Lemma face_of_identity_witness :
  icell gen_x = Ok id_x
  /\ exists face m,
       get_face id_x 0 1 = Ok (Some face, m)
       /\ py_eq face gen_x = true
       /\ m = tmap id_x
       /\ (dim gen_x = 0 ->
           get_face id_x (Z.to_nat (dim gen_x)) 1 = Ok (Some face, m)).
Proof.
  split; [reflexivity|].
  apply (face_of_identity gen_x 1). reflexivity.
Defined.

(** * The globular condition *)

(** C8.  Every diagram of dimension at least 1 that the constructors and
    composition produce has a source and a target that are compatible: their
    sources are equal, their targets are equal and their dimensions are
    equal.  The proof is the preservation of [globular] by every way of
    building a diagram. *)
Theorem built_diagrams_are_compatible (d : Ntext) :
  built d -> 1 <= dim d ->
  exists s t,
    source d = Some s /\ target d = Some t
    /\ compatible s t = Ok true
    /\ py_eq (source s) (source t) = true
    /\ py_eq (target s) (target t) = true
    /\ dim s = dim t.
Proof.
  intros Hb Hd. apply built_globular in Hb.
  destruct (globular_dim_pos Hb Hd) as (s & t & Es & Et & _ & _ & _ & Hc).
  exists s, t. repeat split; auto; apply compatible_true in Hc; tauto.
Qed.

Lemma built_cell_f : built cell_f.
Proof.
  apply (built_ncell "f" (built_zcell "x") (built_zcell "y")). reflexivity.
Qed.

Lemma built_diagrams_are_compatible_witness :
  exists s t,
    source cell_f = Some s /\ target cell_f = Some t
    /\ compatible s t = Ok true
    /\ py_eq (source s) (source t) = true
    /\ py_eq (target s) (target t) = true
    /\ dim s = dim t.
Proof.
  apply built_diagrams_are_compatible.
  - exact built_cell_f.
  - simpl. lia.
Defined.

(** * The composer *)

(** C9, as stated, fails: a generator has no source, and building a
    composer from it raises [AttributeError]. *)
Lemma Composition_of_generator_raises :
  built (zcell "x") /\ Composition_init (zcell "x") = Raise AttributeError.
Proof. split; [constructor | reflexivity]. Qed.

(** C9, amended.  For every diagram of dimension at least 1 that the
    constructors and composition produce, building a composer returns, with
    the identity on the source of the diagram as internal state. *)
Theorem Composition_init_on_cells (d : Ntext) :
  built d -> 1 <= dim d ->
  exists s i,
    source d = Some s /\ icell s = Ok i
    /\ Composition_init d = Ok (mkComposition i).
Proof.
  intros Hb Hd. apply built_shallow in Hb.
  destruct Hb as [name|c a b sm tm Hc]; simpl in Hd; [lia|].
  eexists _, _. repeat split.
Qed.

Lemma Composition_init_on_cells_witness :
  exists s i,
    source cell_f = Some s /\ icell s = Ok i
    /\ Composition_init cell_f = Ok (mkComposition i).
Proof.
  apply Composition_init_on_cells.
  - exact built_cell_f.
  - simpl. lia.
Defined.

(** * Adaptation *)

(** [permute] on an inventory and its index map: a reordering and the
    reverse reordering. *)
Example permute_inventory_round_trip :
  let c1 := Some (mkNtextCell [("x", IList [0])] [("y", IList [0])]) in
  let c2 := Some (mkNtextCell [("y", IList [0])] [("z", IList [0])]) in
  let c3 := Some (mkNtextCell [("z", IList [0])] [("x", IList [1])]) in
  let st := (SubInventory [("f", CSeq [c1; c2; c3])],
             Some [("f", IList [4; 5; 6])]) in
  let st' := (SubInventory [("f", CSeq [c2; c3; c1])],
              Some [("f", IList [5; 6; 4])]) in
  permute [("f", [1; 2; 0])] st = (Ok tt, st')
  /\ permute [("f", [2; 0; 1])] st' = (Ok tt, st).
Proof. split; reflexivity. Qed.

(** [adapt] with a reordering for at least one name raises and changes
    nothing: what it hands to [permute] is a diagram, or [None]. *)
Lemma adapt_raises (n : nat) (perm : dict string (list Z)) (cell : Ntext) :
  perm <> [] -> exists e, adapt n perm cell = (Raise e, cell).
Proof.
  intros Hp. revert cell.
  induction n as [|n IH]; intros [c d s t sm tm]; simpl.
  - destruct perm as [|[name q] perm]; [contradiction|].
    destruct s; simpl; eauto.
  - destruct s as [s|]; [|eauto].
    destruct (IH s) as [e ->]. eauto.
Qed.

(** Whatever its outcome, [adapt] leaves the diagram as it was. *)
Lemma adapt_changes_nothing (n : nat) (perm : dict string (list Z))
  (cell : Ntext) :
  snd (adapt n perm cell) = cell.
Proof.
  destruct perm as [|nq perm].
  - revert cell. induction n as [|n IHn]; intros [c d s t sm tm]; simpl.
    + reflexivity.
    + destruct s as [s|]; [|reflexivity].
      pose proof (IHn s) as Hs.
      destruct (adapt n [] s) as [[u|e] s']; simpl in *;
        subst s'; [|reflexivity].
      destruct t as [t|]; [|reflexivity].
      pose proof (IHn t) as Ht.
      destruct (adapt n [] t) as [r t']; simpl in *.
      subst t'. reflexivity.
  - destruct (@adapt_raises n (nq :: perm) cell) as [e ->];
      [discriminate | reflexivity].
Qed.

(** C10.  [adapt] does not reorder anything: on [f], the reordering [[0]]
    of the one slot of ["x"] raises [TypeError], and so does every
    reordering of the source of a 2-cell over a sequence of three cells. *)
Theorem adapt_raises_TypeError :
  adapt 0 [("x", [0])] cell_f = (Raise TypeError, cell_f)
  /\ (let c1 := Some (mkNtextCell [("x", IList [0])] [("y", IList [0])]) in
      let c2 := Some (mkNtextCell [("y", IList [0])] [("z", IList [0])]) in
      let c3 := Some (mkNtextCell [("z", IList [0])] [("x", IList [1])]) in
      let path :=
        mkNtext (Indexed [("f", CSeq [c1; c2; c3])]) 1
          (Some gen_x) (Some gen_x)
          (Some [("x", IList [0])]) (Some [("x", IList [1])]) in
      let disc :=
        mkNtext (Indexed [("f", CSeq [c1; c2; c3])]) 2
          (Some path) (Some path)
          (Some [("f", IList [0; 1; 2])]) (Some [("f", IList [0; 1; 2])]) in
      adapt 0 [("f", [1; 2; 0])] disc = (Raise TypeError, disc)).
Proof. split; reflexivity. Qed.

(** * Further properties of the code *)

(** ** [compatible] *)

(** X1.  Where it returns, [compatible] is an equivalence: every diagram is
    compatible with itself, the answer (or the failed assertion) does not
    depend on the order of the two diagrams, and compatibility is
    transitive. *)
Theorem compatible_is_an_equivalence :
  (forall d, compatible d d = Ok true)
  /\ (forall s t, compatible s t = compatible t s)
  /\ (forall a b c,
         compatible a b = Ok true -> compatible b c = Ok true ->
         compatible a c = Ok true).
Proof.
  split; [apply compatible_refl|]. split.
  - intros s t. unfold compatible.
    rewrite (py_eq_sym (source s)), (py_eq_sym (target s)),
      (Z.eqb_sym (dim s)).
    reflexivity.
  - intros a b c Hab Hbc.
    apply compatible_true in Hab. destruct Hab as (Hs & Ht & Hd).
    apply compatible_true in Hbc. destruct Hbc as (Hs' & Ht' & Hd').
    apply compatible_true. repeat split.
    + eapply py_eq_trans; eassumption.
    + eapply py_eq_trans; eassumption.
    + congruence.
Qed.

Lemma compatible_is_an_equivalence_witness :
  compatible cell_f id_x_then_f = Ok true
  /\ compatible id_x_then_f cell_f = Ok true
  /\ compatible cell_f cell_f = Ok true.
Proof.
  split; [reflexivity|]. split; [reflexivity|].
  apply (proj2 (proj2 compatible_is_an_equivalence) cell_f id_x_then_f cell_f);
    reflexivity.
Defined.

(** X2.  The only exception of [compatible] is the failed assertion, raised
    exactly when the two diagrams have equal sources and equal targets but
    different dimensions. *)
Theorem compatible_raises_only_AssertionError (s t : Ntext) (e : exn) :
  compatible s t = Raise e <->
  e = AssertionError
  /\ py_eq (source s) (source t) = true
  /\ py_eq (target s) (target t) = true
  /\ dim s <> dim t.
Proof.
  unfold compatible.
  destruct (py_eq (source s) (source t)); simpl;
    [|split; [discriminate | intros (_ & ? & _); discriminate]].
  destruct (py_eq (target s) (target t)); simpl;
    [|split; [discriminate | intros (_ & _ & ? & _); discriminate]].
  destruct (Z.eqb_spec (dim s) (dim t)) as [E|E]; split.
  - discriminate.
  - intros (_ & _ & _ & Hn). contradiction.
  - intros H. inversion H. auto.
  - intros (-> & _). reflexivity.
Qed.

Lemma compatible_raises_only_AssertionError_witness :
  compatible (zcell "x") (mkNtext (Atomic "x") 1 None None None None)
  = Raise AssertionError.
Proof.
  apply compatible_raises_only_AssertionError.
  repeat split. discriminate.
Defined.

(** ** Which exceptions can be raised *)

Lemma only_builtin_Ok {A : Type} (a : A) : only_builtin (Ok a).
Proof. intros e H. discriminate. Qed.

Lemma only_builtin_Raise {A : Type} (e : exn) :
  builtin e -> only_builtin (@Raise A e).
Proof. intros He e' H. inversion H; subst. assumption. Qed.

Lemma only_builtin_cast {A B : Type} (e : exn) :
  only_builtin (@Raise A e) -> only_builtin (@Raise B e).
Proof. intros H e' E. inversion E; subst. apply H. reflexivity. Qed.

Lemma only_builtin_bind {A B : Type} (m : result A) (k : A -> result B) :
  only_builtin m -> (forall a, only_builtin (k a)) -> only_builtin (bind m k).
Proof.
  intros Hm Hk. destruct m as [a|e]; simpl; [apply Hk|].
  intros e' H. inversion H; subst. apply Hm. reflexivity.
Qed.

Lemma only_builtin_for_each {A S : Type} (body : A -> S -> result S)
  (l : list A) (s : S) :
  (forall a s', only_builtin (body a s')) -> only_builtin (for_each l body s).
Proof.
  intros Hb. revert s. induction l as [|a l IH]; intros s; simpl.
  - apply only_builtin_Ok.
  - apply only_builtin_bind; auto.
Qed.

Lemma only_builtin_comprehension {A B : Type} (f : A -> result B)
  (l : list A) :
  (forall a, only_builtin (f a)) -> only_builtin (comprehension f l).
Proof.
  intros Hf. induction l as [|a l IH]; simpl.
  - apply only_builtin_Ok.
  - apply only_builtin_bind; [apply Hf|]. intros b.
    apply only_builtin_bind; [apply IH|]. intros bs. apply only_builtin_Ok.
Qed.

Lemma only_builtinM_bind {S A B : Type} (m : M S A) (k : A -> M S B) :
  only_builtinM m -> (forall a, only_builtinM (k a)) ->
  only_builtinM (bindM m k).
Proof.
  intros Hm Hk s. unfold bindM. specialize (Hm s).
  destruct (m s) as [[a|e] s']; simpl in *; [apply Hk|].
  intros e' H. inversion H; subst. apply Hm. reflexivity.
Qed.

Lemma only_builtinM_for_each {A S T : Type} (body : A -> T -> M S T)
  (l : list A) (t : T) :
  (forall a t', only_builtinM (body a t')) ->
  only_builtinM (for_eachM l body t).
Proof.
  intros Hb. revert t. induction l as [|a l IH]; intros t; simpl.
  - intros s. apply only_builtin_Ok.
  - apply only_builtinM_bind; auto.
Qed.

(** One step of the analysis of an expression of the embedding. *)
Ltac builtin_step :=
  first
    [ apply only_builtin_Ok
    | apply only_builtin_Raise; split; discriminate
    | apply only_builtin_bind; [|intros ?]
    | apply only_builtin_for_each; intros ? ?
    | apply only_builtin_comprehension; intros ?
    | match goal with
      | |- only_builtin (match ?x with _ => _ end) => destruct x
      | |- only_builtin (fst (match ?x with _ => _ end)) => destruct x
      | |- only_builtin (fst (_, _)) => simpl fst
      end ].

Lemma only_builtin_py_index {A : Type} (l : list A) (i : Z) :
  only_builtin (py_index l i).
Proof. unfold py_index. repeat builtin_step. Qed.

Lemma only_builtin_py_setitem {A : Type} (l : list A) (i : Z) (a : A) :
  only_builtin (py_setitem l i a).
Proof. unfold py_setitem. repeat builtin_step. Qed.

Lemma only_builtin_dict_item {K V : Type} `{Key K} (k : K) (d : dict K V) :
  only_builtin (dict_item k d).
Proof. unfold dict_item. repeat builtin_step. Qed.

Lemma only_builtin_deref {A : Type} (o : option A) : only_builtin (deref o).
Proof. unfold deref. repeat builtin_step. Qed.

Lemma only_builtin_subscript {V : Type} (m : option (dict string V))
  (name : string) :
  only_builtin (subscript m name).
Proof.
  unfold subscript. destruct m; [apply only_builtin_dict_item|].
  builtin_step.
Qed.

Lemma only_builtin_translate (m : refmap) (ct : imap) :
  only_builtin (translate m ct).
Proof.
  unfold translate. repeat builtin_step. apply only_builtin_dict_item.
Qed.

Lemma only_builtin_get_face (cell : Ntext) (n : nat) (side : Z) :
  only_builtin (get_face cell n side).
Proof.
  revert cell. induction n as [|n IH]; intros cell; simpl.
  - repeat builtin_step.
  - apply only_builtin_bind; [apply only_builtin_deref|]. intros src.
    apply only_builtin_bind; [apply IH|]. intros [sc scmap].
    apply only_builtin_bind; [apply only_builtin_deref|]. intros items.
    apply only_builtin_bind; [|intros ?; apply only_builtin_Ok].
    apply only_builtin_for_each. intros np acc.
    apply only_builtin_bind; [apply only_builtin_subscript|]. intros sel.
    apply only_builtin_bind; [|intros ?; apply only_builtin_Ok].
    apply only_builtin_comprehension. intros i. apply only_builtin_py_index.
Qed.

Lemma only_builtin_composable (dst src : Ntext) (n : nat)
  (mapping : option refmap) :
  only_builtin (composable dst src n mapping).
Proof.
  unfold composable. destruct (negb _); [apply only_builtin_Ok|].
  apply only_builtin_bind; [apply only_builtin_get_face|]. intros [t tm].
  apply only_builtin_bind; [apply only_builtin_get_face|]. intros [s sm].
  apply only_builtin_bind; [|intros ?; apply only_builtin_Ok].
  destruct mapping as [m|]; [|apply only_builtin_Ok].
  apply only_builtin_bind; [apply only_builtin_deref|]. intros items.
  apply only_builtin_bind; [|intros ?; apply only_builtin_Ok].
  apply only_builtin_for_each. intros [name pos] m'. unfold record_face.
  apply only_builtin_bind; [apply only_builtin_subscript|]. intros t'.
  apply only_builtin_for_each. intros ik m''.
  apply only_builtin_bind; [apply only_builtin_py_index|]. intros ti.
  apply only_builtin_Ok.
Qed.

Lemma only_builtin_pre_stitch_item (nmaps : string * cellsval) (m : refmap) :
  only_builtinM (pre_stitch_item nmaps m).
Proof.
  intros dst. unfold pre_stitch_item. destruct nmaps as [name maps].
  destruct dst as [a|d]; [builtin_step; builtin_step|].
  destruct maps as [len|maps'].
  - destruct (match dict_get name d with Some v => v | None => CCount 0 end)
      as [c|l].
    + destruct (allocate _ _ _ _). apply only_builtin_Ok.
    + destruct (forallb _ _); simpl; repeat builtin_step.
  - destruct (dict_get name d) as [[[| |]|l]|]; simpl;
      try (destruct (allocate _ _ _ _)); simpl; repeat builtin_step.
Qed.

Lemma only_builtin_inventory_items (src : inventory) :
  only_builtin (inventory_items src).
Proof. unfold inventory_items. repeat builtin_step. Qed.

Lemma only_builtin_inventory_item (name : string) (dst : inventory) :
  only_builtin (inventory_item name dst).
Proof.
  unfold inventory_item. destruct dst; [builtin_step|].
  apply only_builtin_dict_item.
Qed.

Lemma only_builtin_stitch_cell (m : refmap) (name : string)
  (ic : Z * option NtextCell) (u : unit) :
  only_builtinM (stitch_cell m name ic u).
Proof.
  intros dst. unfold stitch_cell. destruct ic as [i cell].
  match goal with
  | |- only_builtin (fst (match ?x with _ => _ end)) =>
      assert (Hx : only_builtin x); [|destruct x as [[v|]|e]]
  end.
  - apply only_builtin_bind; [apply only_builtin_dict_item|]. intros r.
    destruct (is_new r); [|apply only_builtin_Ok].
    apply only_builtin_bind; [apply only_builtin_inventory_item|].
    intros [c|l]; [builtin_step|].
    apply only_builtin_bind; [apply only_builtin_py_index|].
    intros [old|]; [builtin_step|].
    apply only_builtin_bind; [apply only_builtin_deref|]. intros c.
    apply only_builtin_bind; [apply only_builtin_translate|]. intros s'.
    apply only_builtin_bind; [apply only_builtin_translate|]. intros t'.
    apply only_builtin_bind; [apply only_builtin_py_setitem|]. intros l'.
    apply only_builtin_Ok.
  - destruct dst; apply only_builtin_Ok.
  - apply only_builtin_Ok.
  - simpl. intros e' H. inversion H; subst. apply Hx. reflexivity.
Qed.

Lemma only_builtin_stitch (src : inventory) (m : refmap) :
  only_builtinM (stitch src m).
Proof.
  unfold stitch, pre_stitch.
  apply only_builtinM_bind.
  - apply only_builtinM_bind.
    + intros s. apply only_builtin_inventory_items.
    + intros items. apply only_builtinM_for_each.
      apply only_builtin_pre_stitch_item.
  - intros m'. apply only_builtinM_bind.
    + intros s. apply only_builtin_inventory_items.
    + intros items. apply only_builtinM_bind; [|intros ? s; apply only_builtin_Ok].
      apply only_builtinM_for_each. intros [name [len|maps']] u; simpl.
      * intros s. apply only_builtin_Ok.
      * apply only_builtinM_bind.
        -- intros s. simpl.
           apply only_builtin_bind; [apply only_builtin_inventory_item|].
           intros ?. apply only_builtin_Ok.
        -- intros ?. apply only_builtinM_for_each.
           intros ic u'. apply only_builtin_stitch_cell.
Qed.

Lemma only_builtin_extend_boundary_map (cm : refmap) (key : string)
  (u : unit) :
  only_builtinM (extend_boundary_map cm key u).
Proof.
  intros dm. unfold extend_boundary_map.
  destruct (unpack_pair key) as [[n p]|e] eqn:E.
  - destruct dm as [m|]; [|simpl; builtin_step].
    destruct (dict_get n _) as [[l|k]|]; simpl; builtin_step.
  - simpl. unfold unpack_pair in E.
    destruct key as [|a [|b [|c k]]]; inversion E; subst; builtin_step.
Qed.

Lemma only_builtin_compose (src : Ntext) (n : nat) (mapping : option refmap) :
  only_builtinM (compose src n mapping).
Proof.
  revert src mapping. induction n as [|n IH]; intros src mapping dst;
    cbn [compose].
  - pose proof (only_builtin_composable dst src 0
                  (Some match mapping with None => [] | Some m => m end))
      as Hc.
    destruct (composable dst src 0 _) as [[c m']|e];
      [|exact (only_builtin_cast Hc)].
    destruct c; cbn [negb fst]; [|apply only_builtin_Ok].
    pose proof (only_builtin_stitch (cells src)
                  (match m' with
                   | None => match mapping with None => [] | Some m => m end
                   | Some m => m
                   end) (cells dst)) as Hs.
    destruct (stitch _ _ _) as [[m1|e] ntext];
      [|exact (only_builtin_cast Hs)].
    match goal with
    | |- only_builtin (fst (match ?x with _ => _ end)) =>
        assert (Hx : only_builtin x); [|destruct x as [tm|e]]
    end.
    + apply only_builtin_bind; [apply only_builtin_deref|]. intros items.
      apply only_builtin_translate.
    + apply only_builtin_Ok.
    + simpl. intros e' H. inversion H; subst. apply Hx. reflexivity.
  - pose proof (only_builtin_composable dst src (S n)
                  (Some match mapping with None => [] | Some m => m end))
      as Hc.
    destruct (composable dst src (S n) _) as [[c m']|e];
      [|exact (only_builtin_cast Hc)].
    destruct c; cbn [negb fst]; [|apply only_builtin_Ok].
    pose proof (only_builtin_stitch (cells src)
                  (match m' with
                   | None => match mapping with None => [] | Some m => m end
                   | Some m => m
                   end) (cells dst)) as Hs.
    destruct (stitch _ _ _) as [[m1|e] ntext];
      [|exact (only_builtin_cast Hs)].
    assert (Hb : forall s sm st,
               only_builtin
                 (fst (compose_boundary (fun s' => compose s' n) s sm st))).
    { intros s sm [d dm]. unfold compose_boundary.
      destruct d as [d'|]; [|builtin_step; builtin_step].
      destruct s as [s'|]; [|builtin_step; builtin_step].
      pose proof (IH s' (Some []) d') as Hr.
      destruct (compose s' n (Some []) d') as [[[[r|] cm]|e] d''];
        simpl in *.
      - destruct sm as [sm'|]; [|simpl; builtin_step].
        pose proof (only_builtinM_for_each (extend_boundary_map cm)
                      (map fst sm') tt
                      (fun a t => only_builtin_extend_boundary_map cm a t)
                      dm) as Hf.
        destruct (for_eachM _ _ _ _) as [[u|e] dm']; simpl in *.
        + apply only_builtin_Ok.
        + intros e' H. inversion H; subst. apply Hf. reflexivity.
      - builtin_step.
      - intros e' H. inversion H; subst. apply Hr. reflexivity. }
    match goal with
    | |- only_builtin (fst (match ?x with _ => _ end)) =>
        pose proof (Hb (source src) (smap src)
                      (source (set_cells ntext dst),
                       smap (set_cells ntext dst))) as H0;
        destruct x as [[r0|e] [d dm]]; simpl in H0
    end.
    + match goal with
      | |- only_builtin (fst (match ?x with _ => _ end)) =>
          destruct x as [[r1|e] [d1 dm1]] eqn:E1
      end.
      * simpl. builtin_step.
      * simpl. intros e' H. inversion H; subst.
        match type of E1 with
        | compose_boundary ?f ?s ?sm ?st = _ =>
            pose proof (Hb s sm st) as H1; rewrite E1 in H1
        end.
        apply H1. reflexivity.
    + simpl. intros e' H. inversion H; subst. apply H0. reflexivity.
Qed.

Lemma only_builtin__ncell (name : string) (s t : Ntext) :
  only_builtin (_ncell name s t).
Proof.
  unfold _ncell.
  apply only_builtin_bind; [|intros ?; apply only_builtin_Ok].
  destruct (0 <? dim (deepcopy s)).
  - apply only_builtin_bind; [repeat builtin_step|]. intros scells.
    apply only_builtin_bind.
    { apply only_builtin_for_each. intros [n [c|l]] st; simpl;
        repeat builtin_step. }
    intros st.
    apply only_builtin_bind; [repeat builtin_step|]. intros tcells.
    apply only_builtin_bind.
    { apply only_builtin_for_each. intros [n c] st'.
      unfold ncell_append_target.
      apply only_builtin_bind; [apply only_builtin_dict_item|].
      intros [k|old]; [builtin_step|]. destruct c; repeat builtin_step. }
    intros st'.
    apply only_builtin_bind; [|intros ?; apply only_builtin_Ok].
    apply only_builtin_for_each. intros [n c] u.
    unfold ncell_shift_target.
    apply only_builtin_bind; [apply only_builtin_dict_item|]. intros off.
    destruct c as [k|l]; [builtin_step|].
    destruct (range_list _ _); [builtin_step|].
    apply only_builtin_bind; [apply only_builtin_py_index|].
    intros [|[c|]]; builtin_step.
  - apply only_builtin_bind; [repeat builtin_step|]. intros sn.
    apply only_builtin_bind; [repeat builtin_step|]. intros tn.
    repeat builtin_step.
Qed.

(** ** [ncell] *)

(** X3.  [ncell] raises [NotCompatible] exactly when [compatible] answers
    [False]: the construction itself never raises it.  In the third
    scenario, [f : x -> y] and [h : y -> x] have different sources. *)
Theorem ncell_raises_NotCompatible (name : string) (s t : Ntext) :
  ncell name s t = Raise NotCompatible <-> compatible s t = Ok false.
Proof.
  unfold ncell. split.
  - destruct (compatible s t) as [[|]|e] eqn:E; simpl; intros H.
    + exfalso. apply (only_builtin__ncell name s t) in H. destruct H; auto.
    + reflexivity.
    + inversion H; subst. unfold compatible in E.
      destruct (py_eq (source s) (source t) && py_eq (target s) (target t));
        [destruct (dim s =? dim t)|]; discriminate.
  - intros ->. reflexivity.
Qed.

Lemma ncell_raises_NotCompatible_witness :
  compatible cell_f cell_g = Ok false
  /\ ncell "bad" cell_f cell_g = Raise NotCompatible.
Proof.
  split; [reflexivity|].
  apply ncell_raises_NotCompatible. reflexivity.
Defined.

(** X4.  [_ncell] assumes that [name] is unused.  When the target generator
    carries the name of the new cell and the source does not, [ncell] raises
    [TypeError] ([+= 1] on the list that holds the new cell); when the source
    generator carries it, [ncell] returns a diagram whose inventory has lost
    the new cell: the counter of the source has overwritten its list. *)
Theorem ncell_generators_name_in_use (name sn tn : string) :
  (sn <> name -> ncell name (zcell sn) (zcell name) = Raise TypeError)
  /\ ncell name (zcell name) (zcell tn)
     = Ok (mkNtext
             (Indexed (if String.eqb tn name then [(name, CCount 2)]
                       else [(name, CCount 1); (tn, CCount 1)]))
             1 (Some (zcell name)) (Some (zcell tn))
             (Some [(name, IList [0])])
             (Some [(tn, IList [target_slot name tn])])).
Proof.
  split.
  - intros Hn.
    assert (E : String.eqb sn name = false) by (apply String.eqb_neq; auto).
    unfold ncell, _ncell; simpl. unfold keyb, Key_string.
    rewrite E; simpl. unfold keyb, Key_string.
    rewrite String.eqb_refl. reflexivity.
  - unfold ncell, _ncell, target_slot; simpl. unfold keyb, Key_string.
    rewrite String.eqb_refl; simpl. unfold keyb, Key_string.
    destruct (String.eqb tn name); simpl; unfold keyb, Key_string;
      rewrite ?String.eqb_refl; reflexivity.
Qed.

Lemma ncell_generators_name_in_use_witness :
  ncell "x" (zcell "y") (zcell "x") = Raise TypeError.
Proof.
  apply (proj1 (ncell_generators_name_in_use "x" "y" "x")). discriminate.
Defined.

(** ** [icell] *)

Lemma for_each_all_Ok {A S : Type} (body : A -> S -> result S) (l : list A)
  (s : S) :
  (forall a s1, In a l -> exists s2, body a s1 = Ok s2) ->
  exists s', for_each l body s = Ok s'.
Proof.
  revert s. induction l as [|a l IH]; intros s Hb; simpl; [eauto|].
  destruct (Hb a s (or_introl eq_refl)) as [s2 ->]. simpl.
  apply IH. intros b s1 HIn. apply Hb. right. assumption.
Qed.

(** X5.  [icell] returns exactly on a diagram of dimension 0 whose [cells]
    is a name, and on a diagram of another dimension whose [cells] is a dict
    that binds every name to a list; a counter in the inventory makes it
    raise. *)
Theorem icell_returns_iff (d : Ntext) :
  (exists r, icell d = Ok r) <->
  (dim d = 0 /\ exists name, cells d = Atomic name)
  \/ (dim d <> 0
      /\ exists c, cells d = Indexed c
                   /\ forall k v, In (k, v) c -> exists l, v = CSeq l).
Proof.
  unfold icell, deepcopy.
  destruct (Z.eqb_spec (dim d) 0) as [E|E]; split.
  - destruct (cells d) as [name|c].
    + intros _. left. split; [assumption | exists name; reflexivity].
    + intros [r H]. discriminate.
  - intros [[_ [name ->]]|[Hn _]]; [simpl; eauto | contradiction].
  - intros [r H]. right. split; [assumption|].
    destruct (cells d) as [name|c]; [discriminate|].
    exists c. split; [reflexivity|]. intros k v HIn.
    bind_inv H. bind_inv Ha.
    destruct (for_each_Ok_In _ _ _ _ Ha0 HIn) as (s1 & s2 & Hb).
    simpl in Hb. destruct v as [n|l]; [discriminate | eauto].
  - intros [[H0 _]|[_ (c & -> & Hc)]]; [contradiction|].
    match goal with
    | |- context [for_each c ?body ?s] =>
        destruct (@for_each_all_Ok _ _ body c s) as [sm ->]
    end.
    + intros [k v] s1 HIn. destruct (Hc k v HIn) as [l ->]. simpl. eauto.
    + simpl. eauto.
Qed.

Lemma icell_returns_iff_witness :
  (exists r, icell gen_x = Ok r) /\ ~ (exists r, icell cell_f = Ok r).
Proof.
  split.
  - apply icell_returns_iff. left. split; [reflexivity|].
    exists "x". reflexivity.
  - intros H. apply icell_returns_iff in H.
    destruct H as [[H _]|[_ (c & Hc & Hall)]]; [discriminate|].
    inversion Hc; subst c.
    destruct (Hall "x" (CCount 1)) as [l Hl]; [simpl; auto | discriminate].
Defined.

(** X6.  An identity can be composed with itself: its target face and its
    source face at relative dimension 0 are the diagram it was made from. *)
Theorem identity_composes_with_itself (d i : Ntext) :
  icell d = Ok i -> Ntext_composable i i 0 = Ok true.
Proof.
  intros H. apply icell_inv in H. destruct H as (_ & Es & Et & _).
  unfold Ntext_composable, composable. rewrite Z.eqb_refl. simpl.
  rewrite Es, Et. rewrite py_eq_refl. reflexivity.
Qed.

Lemma identity_composes_with_itself_witness :
  Ntext_composable id_x id_x 0 = Ok true.
Proof. apply (identity_composes_with_itself gen_x). reflexivity. Defined.

(** ** [get_face] *)

(** X7.  On a diagram that satisfies the globular condition at every level,
    asking for a face at a relative dimension beyond the dimension of the
    diagram raises [AttributeError]: the descent through [source] reaches
    the [None] of a generator. *)
Theorem get_face_beyond_dimension (d : Ntext) (n : nat) (side : Z) :
  globular d -> dim d < Z.of_nat n ->
  get_face d n side = Raise AttributeError.
Proof.
  revert d. induction n as [|n IH]; intros d Hg Hd.
  - apply globular_dim_nonneg in Hg. simpl in Hd. lia.
  - destruct Hg as [name|c s t sm tm Hs Ht Hc]; [reflexivity|].
    simpl in *. rewrite (IH s Hs) by lia. reflexivity.
Qed.

Lemma get_face_beyond_dimension_witness :
  get_face cell_f 2 1 = Raise AttributeError.
Proof.
  apply get_face_beyond_dimension; [|simpl; lia].
  apply built_globular, built_cell_f.
Defined.

(** X8.  [get_face] reads [side] through its sign only: a negative side is
    the source side, and 0 counts as the target side like every positive
    number. *)
Theorem get_face_side_sign (cell : Ntext) (n : nat) (side side' : Z) :
  (side <? 0) = (side' <? 0) ->
  get_face cell n side = get_face cell n side'.
Proof.
  intros E. revert cell. induction n as [|n IH]; intros cell; simpl.
  - rewrite E. reflexivity.
  - destruct (source cell) as [s|]; simpl; [|reflexivity].
    rewrite (IH s). reflexivity.
Qed.

Lemma get_face_side_sign_witness :
  get_face cell_f 0 0 = get_face cell_f 0 1
  /\ get_face cell_f 0 0 = Ok (Some gen_y, Some [("y", IList [0])]).
Proof.
  split; [|reflexivity].
  apply get_face_side_sign. reflexivity.
Defined.

(** ** [composable] *)

(** X9.  Without a table, as the method [Ntext.composable] calls it,
    [composable] at relative dimension 0 never raises: it answers whether
    the dimensions are equal and the source of the second diagram equals the
    target of the first. *)
Theorem Ntext_composable_vertical (dst src : Ntext) :
  Ntext_composable dst src 0
  = Ok ((dim dst =? dim src) && py_eq (source src) (target dst)).
Proof.
  unfold Ntext_composable, composable.
  destruct (dim dst =? dim src); reflexivity.
Qed.

Lemma for_each_invariant {A S : Type} (P : S -> Prop)
  (body : A -> S -> result S) (l : list A) (s s' : S) :
  (forall a s1 s2, body a s1 = Ok s2 -> P s1 -> P s2) ->
  for_each l body s = Ok s' -> P s -> P s'.
Proof.
  intros Hb. revert s. induction l as [|a l IH]; intros s H Hs; simpl in H.
  - inversion H; subst. assumption.
  - bind_inv H. eauto.
Qed.

Lemma dict_get_set_cases {K V : Type} `{KeyLaws K} (k k' : K) (v x : V)
  (d : dict K V) :
  dict_get k' (dict_set k v d) = Some x ->
  (k = k' /\ x = v) \/ (k <> k' /\ dict_get k' d = Some x).
Proof.
  destruct (keyb k k') eqn:E.
  - apply keyb_eq in E. subst k'. rewrite dict_get_set_same.
    intros H1. inversion H1. auto.
  - assert (Hn : k <> k').
    { intros ->. rewrite keyb_refl in E. discriminate. }
    rewrite dict_get_set_other by assumption. auto.
Qed.

(** X10.  Filling a table does not change the answer of [composable]: when
    the call with a table returns, the call without one returns the same
    answer.  Every entry of the table afterwards was there before or is
    flagged as not new. *)
Theorem composable_with_table (dst src : Ntext) (n : nat) (m : refmap)
  (b : bool) (m' : option refmap) :
  composable dst src n (Some m) = Ok (b, m') ->
  Ntext_composable dst src n = Ok b
  /\ exists m2,
       m' = Some m2
       /\ forall key r,
            dict_get key m2 = Some r ->
            dict_get key m = Some r \/ is_new r = false.
Proof.
  unfold Ntext_composable, composable.
  destruct (negb (dim dst =? dim src)).
  - intros H. inversion H; subst. split; [reflexivity|].
    exists m. split; [reflexivity | auto].
  - destruct (get_face dst n 1) as [[t tm]|e]; simpl; [|discriminate].
    destruct (get_face src n (-1)) as [[s sm]|e]; simpl; [|discriminate].
    intros H. bind_inv H. inversion H; subst; clear H.
    split; [reflexivity|].
    apply bind_Ok in Ha. destruct Ha as (items & _ & Ha).
    apply bind_Ok in Ha. destruct Ha as (m2 & Hfor & Ha).
    inversion Ha; subst; clear Ha.
    exists m2. split; [reflexivity|].
    eapply for_each_invariant
      with (P := fun m2 => forall key r,
                     dict_get key m2 = Some r ->
                     dict_get key m = Some r \/ is_new r = false);
      [|exact Hfor|auto].
    intros [name pos] s1 s2 Hb Hs1. unfold record_face in Hb.
    bind_inv Hb.
    eapply for_each_invariant
      with (P := fun m2 => forall key r,
                     dict_get key m2 = Some r ->
                     dict_get key m = Some r \/ is_new r = false);
      [|exact Hb|assumption].
    intros [i k] s3 s4 Hset Hs3. bind_inv Hset.
    inversion Hset; subst; clear Hset.
    intros key r Hget. apply dict_get_set_cases in Hget.
    destruct Hget as [[_ ->]|[_ Hget]]; [right; reflexivity | auto].
Qed.

Lemma composable_with_table_witness :
  composable id_x cell_f 0 (Some [])
  = Ok (true, Some [("x", 0, mk_ref 0 false)])
  /\ Ntext_composable id_x cell_f 0 = Ok true.
Proof.
  split; [reflexivity|].
  apply (composable_with_table id_x cell_f 0 []
           (m' := Some [("x", 0, mk_ref 0 false)])).
  reflexivity.
Defined.

(** ** [pre_stitch] *)

Lemma extends_table_refl (m : refmap) : extends_table m m.
Proof. split; auto. Qed.

Lemma extends_table_trans (m1 m2 m3 : refmap) :
  extends_table m1 m2 -> extends_table m2 m3 -> extends_table m1 m3.
Proof.
  intros [K1 N1] [K2 N2]. split; [auto|].
  intros key r H. destruct (N2 _ _ H) as [H'|H']; auto.
Qed.

Lemma dict_mem_false {K V : Type} `{Key K} (k : K) (d : dict K V) :
  dict_mem k d = false -> dict_get k d = None.
Proof. unfold dict_mem. destruct (dict_get k d); [discriminate | auto]. Qed.

Lemma allocate_extends (name : string) (todo : list Z) (m : refmap) (c : Z) :
  extends_table m (fst (allocate name todo m c)).
Proof.
  revert m c. induction todo as [|i todo IH]; intros m c; simpl.
  - apply extends_table_refl.
  - destruct (dict_mem (name, i) m) eqn:E; [apply IH|].
    eapply extends_table_trans; [|apply IH].
    apply dict_mem_false in E. split.
    + intros key r H. rewrite dict_get_set_other; [assumption|].
      intros <-. congruence.
    + intros key r H. apply dict_get_set_cases in H.
      destruct H as [[_ ->]|[_ H]]; auto.
Qed.

Lemma allocate_total (name : string) (todo : list Z) (m : refmap) (c : Z)
  (i : Z) :
  In i todo -> dict_mem (name, i) (fst (allocate name todo m c)) = true.
Proof.
  revert m c. induction todo as [|j todo IH]; intros m c HIn; [contradiction|].
  simpl. destruct HIn as [->|HIn].
  - destruct (dict_mem (name, i) m) eqn:E.
    + unfold dict_mem in *.
      destruct (dict_get (name, i) m) as [r|] eqn:G; [|discriminate].
      rewrite (proj1 (allocate_extends name todo m c) _ _ G). reflexivity.
    + unfold dict_mem.
      rewrite (proj1 (allocate_extends name todo _ (c + 1)) (name, i)
                 (mk_ref c true)); [reflexivity|].
      apply dict_get_set_same.
  - destruct (dict_mem (name, j) m); apply IH; assumption.
Qed.

Lemma In_range_list (a b i : Z) : a <= i < b -> In i (range_list a b).
Proof.
  intros H. unfold range_list. apply in_map_iff.
  exists (Z.to_nat (i - a)). split; [lia|].
  apply in_seq. lia.
Qed.

(** What one round of [pre_stitch] does to the table. *)
Lemma pre_stitch_item_table (name : string) (maps : cellsval) (m : refmap)
  (dst : inventory) (m' : refmap) (dst' : inventory) :
  pre_stitch_item (name, maps) m dst = (Ok m', dst') ->
  extends_table m m'
  /\ forall i, 0 <= i < cells_size maps -> dict_mem (name, i) m' = true.
Proof.
  unfold pre_stitch_item. destruct dst as [a|d]; [discriminate|].
  destruct maps as [len|maps']; simpl.
  - destruct (match dict_get name d with Some v => v | None => CCount 0 end)
      as [c|l].
    + pose proof (allocate_extends name (range_list 0 len) m c) as He.
      pose proof (allocate_total name (range_list 0 len) m c) as Ht.
      destruct (allocate name (range_list 0 len) m c) as [m1 c1].
      simpl in *. intros H. inversion H; subst. split; [assumption|].
      intros i Hi. apply Ht, In_range_list. assumption.
    + destruct (forallb _ _) eqn:E; intros H; inversion H; subst.
      split; [apply extends_table_refl|]. intros i Hi.
      rewrite forallb_forall in E. apply E, In_range_list. assumption.
  - destruct (match dict_get name d with
              | Some (CCount 0) => Ok []
              | Some (CCount _) => Raise TypeError
              | Some (CSeq l) => Ok l
              | None => Ok []
              end) as [cells'|e]; [|discriminate].
    pose proof (allocate_extends name
                  (range_list 0 (Z.of_nat (List.length maps'))) m
                  (Z.of_nat (List.length cells'))) as He.
    pose proof (allocate_total name
                  (range_list 0 (Z.of_nat (List.length maps'))) m
                  (Z.of_nat (List.length cells'))) as Ht.
    destruct (allocate name _ m _) as [m1 c1].
    simpl in *. intros H. inversion H; subst. split; [assumption|].
    intros i Hi. apply Ht, In_range_list. assumption.
Qed.

Lemma for_eachM_Ok_each {A S T : Type} (R : T -> T -> Prop)
  (C : A -> T -> Prop) (body : A -> T -> M S T) :
  (forall t, R t t) ->
  (forall t1 t2 t3, R t1 t2 -> R t2 t3 -> R t1 t3) ->
  (forall a t t', R t t' -> C a t -> C a t') ->
  (forall a t s t' s', body a t s = (Ok t', s') -> R t t' /\ C a t') ->
  forall l t s t' s',
    for_eachM l body t s = (Ok t', s') ->
    R t t' /\ forall a, In a l -> C a t'.
Proof.
  intros Hrefl Htrans Hmono Hbody l.
  induction l as [|a l IH]; intros t s t' s' H; simpl in H.
  - inversion H; subst. split; [apply Hrefl | contradiction].
  - unfold bindM in H.
    destruct (body a t s) as [[t1|e] s1] eqn:E; [|discriminate].
    destruct (Hbody _ _ _ _ _ E) as [HR HC].
    destruct (IH _ _ _ _ H) as [HR' HC'].
    split; [eapply Htrans; eassumption|].
    intros b [<-|HIn]; [eapply Hmono; eassumption | auto].
Qed.

(** X11.  When [pre_stitch] returns, the table extends the one it was
    given -- no entry is changed, and every added entry is flagged as
    new -- and it covers the source inventory: every position of every name
    of the source has an entry. *)
Theorem pre_stitch_covers_source (items : dict string cellsval)
  (m : refmap) (dst : inventory) (m' : refmap) (dst' : inventory) :
  pre_stitch (Indexed items) m dst = (Ok m', dst') ->
  extends_table m m'
  /\ forall name maps i,
       In (name, maps) items -> 0 <= i < cells_size maps ->
       dict_mem (name, i) m' = true.
Proof.
  unfold pre_stitch, bindM, liftM; simpl. intros H.
  pose (C := fun (nm : string * cellsval) (t : refmap) =>
               forall i, 0 <= i < cells_size (snd nm) ->
                         dict_mem (fst nm, i) t = true).
  assert (Hmono : forall a t t', extends_table t t' -> C a t -> C a t').
  { unfold C. intros [name maps] t t' [Hk _] Hc i Hi; simpl in *.
    specialize (Hc i Hi). unfold dict_mem in *.
    destruct (dict_get (name, i) t) as [r|] eqn:G; [|discriminate].
    rewrite (Hk _ _ G). reflexivity. }
  assert (Hbody : forall a t s t' s',
             pre_stitch_item a t s = (Ok t', s') ->
             extends_table t t' /\ C a t').
  { unfold C. intros [name maps] t s t' s' Hb.
    apply pre_stitch_item_table in Hb. assumption. }
  destruct (@for_eachM_Ok_each _ _ _ extends_table C pre_stitch_item
              extends_table_refl extends_table_trans Hmono Hbody
              items m dst m' dst' H) as [HR HC].
  split; [assumption|]. intros name maps i HIn Hi.
  apply (HC (name, maps) HIn i Hi).
Qed.

Lemma pre_stitch_covers_source_witness :
  pre_stitch (cells cell_f) [("x", 0, mk_ref 0 false)] (cells id_x)
  = (Ok table_x_f,
      Indexed [("x", CCount 1); ("f", CSeq [None]); ("y", CCount 1)])
  /\ extends_table [("x", 0, mk_ref 0 false)] table_x_f
  /\ dict_mem ("f", 0) table_x_f = true.
Proof.
  split; [reflexivity|].
  destruct (pre_stitch_covers_source
              [("f", CSeq [Some (mkNtextCell [("x", IList [0])]
                                   [("y", IList [0])])]);
               ("x", CCount 1); ("y", CCount 1)]
              [("x", 0, mk_ref 0 false)] (cells id_x)
              (m' := table_x_f)
              (dst' := Indexed [("x", CCount 1); ("f", CSeq [None]);
                                ("y", CCount 1)]) eq_refl) as [He Hc].
  split; [exact He|].
  apply (Hc "f" (CSeq [Some (mkNtextCell [("x", IList [0])]
                               [("y", IList [0])])]) 0).
  - left. reflexivity.
  - simpl. lia.
Defined.

(** ** [stitch] *)

Lemma keeps_cells_refl (dst : inventory) : keeps_cells dst dst.
Proof.
  destruct dst as [a|d]; simpl; [reflexivity|].
  repeat split; eauto. intros k v H Hv. exists v. split; [assumption|lia].
Qed.

Lemma keeps_cells_trans (d1 d2 d3 : inventory) :
  keeps_cells d1 d2 -> keeps_cells d2 d3 -> keeps_cells d1 d3.
Proof.
  destruct d1 as [a1|d1], d2 as [a2|d2], d3 as [a3|d3]; simpl;
    try tauto; try congruence.
  intros (N1 & C1 & L1) (N2 & C2 & L2). repeat split.
  - auto.
  - intros k v H Hv. destruct (C1 _ _ H Hv) as (v' & H' & Hle).
    destruct (C2 _ _ H') as (v'' & H'' & Hle'); [lia|].
    exists v''. split; [assumption|lia].
  - intros k l H. destruct (L1 _ _ H) as (l' & H' & Hl).
    destruct (L2 _ _ H') as (l'' & H'' & Hl').
    exists l''. split; auto.
Qed.

(** Binding one name anew keeps the others. *)
Lemma keeps_cells_set (name : string) (x : cellsval)
  (d : dict string cellsval) :
  (forall v, dict_get name d = Some (CCount v) -> 0 < v ->
             exists v', x = CCount v' /\ v <= v') ->
  (forall l, dict_get name d = Some (CSeq l) ->
             exists l', x = CSeq l'
                        /\ forall j c, nth_error l j = Some (Some c) ->
                                       nth_error l' j = Some (Some c)) ->
  keeps_cells (Indexed d) (Indexed (dict_set name x d)).
Proof.
  intros Hc Hl. simpl. repeat split.
  - intros k Hk. unfold dict_mem in *.
    destruct (string_dec name k) as [->|Hn].
    + rewrite dict_get_set_same. reflexivity.
    + rewrite dict_get_set_other by assumption. assumption.
  - intros k v Hk Hv. destruct (string_dec name k) as [->|Hn].
    + rewrite dict_get_set_same. destruct (Hc v Hk Hv) as (v' & -> & Hle).
      eauto.
    + rewrite dict_get_set_other by assumption. exists v.
      split; [assumption|lia].
  - intros k l Hk. destruct (string_dec name k) as [->|Hn].
    + rewrite dict_get_set_same. destruct (Hl l Hk) as (l' & -> & Hj). eauto.
    + rewrite dict_get_set_other by assumption. eauto.
Qed.

Lemma pre_stitch_item_keeps (nmaps : string * cellsval) (m : refmap)
  (dst : inventory) :
  keeps_cells dst (snd (pre_stitch_item nmaps m dst)).
Proof.
  destruct nmaps as [name maps]. unfold pre_stitch_item.
  destruct dst as [a|d]; [reflexivity|].
  destruct maps as [len|maps'].
  - destruct (dict_get name d) as [[c|l]|] eqn:E.
    + pose proof (allocate_le name (range_list 0 len) m c) as Hle.
      destruct (allocate name (range_list 0 len) m c) as [m1 c1].
      cbn [snd fst] in *.
      eapply keeps_cells_trans with
        (d2 := Indexed (if c =? 0 then dict_set name (CCount c) d else d)).
      * destruct (c =? 0); [|apply keeps_cells_refl].
        apply keeps_cells_set.
        -- intros v Hv _. exists c. split; [reflexivity|].
           rewrite E in Hv. inversion Hv. lia.
        -- intros l Hl. congruence.
      * apply keeps_cells_set.
        -- intros v Hv Hpos. exists c1. split; [reflexivity|].
           destruct (c =? 0);
             [rewrite dict_get_set_same in Hv | rewrite E in Hv];
             inversion Hv; subst; lia.
        -- intros l Hl.
           destruct (c =? 0);
             [rewrite dict_get_set_same in Hl | rewrite E in Hl];
             discriminate.
    + destruct (forallb _ _); apply keeps_cells_refl.
    + destruct (allocate name (range_list 0 len) m 0) as [m1 c1].
      cbn [snd fst Z.eqb].
      eapply keeps_cells_trans with
        (d2 := Indexed (dict_set name (CCount 0) d)).
      * apply keeps_cells_set; intros x Hx; congruence.
      * apply keeps_cells_set.
        -- intros v Hv Hpos. rewrite dict_get_set_same in Hv.
           inversion Hv; subst. lia.
        -- intros l Hl. rewrite dict_get_set_same in Hl. discriminate.
  - destruct (dict_get name d) as [[c|l]|] eqn:E.
    + destruct c; try apply keeps_cells_refl.
      destruct (allocate _ _ _ _) as [m1 c1]. cbn [snd fst].
      eapply keeps_cells_trans with
        (d2 := Indexed (dict_set name (CSeq []) d)).
      * apply keeps_cells_set; intros x Hx; try congruence.
        intros Hpos. rewrite E in Hx. inversion Hx; subst. lia.
      * apply keeps_cells_set.
        -- intros v Hv. rewrite dict_get_set_same in Hv. discriminate.
        -- intros l Hl. rewrite dict_get_set_same in Hl.
           inversion Hl; subst. eexists. split; [reflexivity|].
           intros [|j] c Hj; discriminate.
    + destruct (allocate _ _ _ _) as [m1 c1]. cbn [snd fst].
      eapply keeps_cells_trans with
        (d2 := Indexed (match l with
                        | [] => dict_set name (CSeq []) d
                        | _ :: _ => d
                        end)).
      * destruct l; [|apply keeps_cells_refl].
        apply keeps_cells_set; intros x Hx; try congruence.
        rewrite E in Hx. inversion Hx; subst.
        eexists. split; [reflexivity|]. auto.
      * apply keeps_cells_set.
        -- intros v Hv.
           destruct l; [rewrite dict_get_set_same in Hv|]; congruence.
        -- intros l0 Hl.
           assert (l0 = l) as ->.
           { destruct l; [rewrite dict_get_set_same in Hl|]; congruence. }
           eexists. split; [reflexivity|]. intros j c Hj.
           rewrite nth_error_app1; [assumption|].
           apply nth_error_Some. congruence.
    + destruct (allocate _ _ _ _) as [m1 c1]. cbn [snd fst].
      eapply keeps_cells_trans with
        (d2 := Indexed (dict_set name (CSeq []) d)).
      * apply keeps_cells_set; intros x Hx; congruence.
      * apply keeps_cells_set.
        -- intros v Hv. rewrite dict_get_set_same in Hv. discriminate.
        -- intros l Hl. rewrite dict_get_set_same in Hl.
           inversion Hl; subst. eexists. split; [reflexivity|].
           intros [|j] c Hj; discriminate.
Qed.

Lemma nth_error_list_update_other {A : Type} (l : list A) (j p : nat)
  (a : A) :
  p <> j -> nth_error (list_update l j a) p = nth_error l p.
Proof.
  revert j p. induction l as [|b l IH]; intros j p Hn; [reflexivity|].
  destruct j as [|j], p as [|p]; simpl; auto; congruence.
Qed.

(** Filling a slot that holds [None] leaves every cell where it is. *)
Lemma fill_placeholder_keeps {A : Type} (l l' : list (option A)) (i : Z)
  (x : option A) :
  py_index l i = Ok None -> py_setitem l i x = Ok l' ->
  forall p c, nth_error l p = Some (Some c) -> nth_error l' p = Some (Some c).
Proof.
  unfold py_index, py_setitem.
  destruct (_ && _); [|discriminate].
  destruct (nth_error l _) as [[a|]|] eqn:E; try discriminate.
  intros _ H p c Hp. inversion H; subst.
  rewrite nth_error_list_update_other; [assumption|].
  intros ->. congruence.
Qed.

Lemma stitch_cell_keeps (m : refmap) (name : string)
  (ic : Z * option NtextCell) (u : unit) (dst : inventory) :
  keeps_cells dst (snd (stitch_cell m name ic u dst)).
Proof.
  destruct ic as [i cell]. unfold stitch_cell.
  destruct (dict_item (name, i) m) as [r|e]; cbn [bind snd];
    [|apply keeps_cells_refl].
  destruct (is_new r); cbn [snd]; [|apply keeps_cells_refl].
  destruct dst as [a|d]; [apply keeps_cells_refl|].
  unfold inventory_item, dict_item.
  destruct (dict_get name d) as [[c|l]|] eqn:E; cbn [bind snd];
    try apply keeps_cells_refl.
  destruct (py_index l (index r)) as [[old|]|e] eqn:Ei; cbn [bind snd];
    try apply keeps_cells_refl.
  destruct (deref cell) as [c|e]; cbn [bind snd]; [|apply keeps_cells_refl].
  destruct (translate m (cell_source c)) as [s'|e]; cbn [bind snd];
    [|apply keeps_cells_refl].
  destruct (translate m (cell_target c)) as [t'|e]; cbn [bind snd];
    [|apply keeps_cells_refl].
  destruct (py_setitem l (index r) _) as [l'|e] eqn:Es; cbn [bind snd];
    [|apply keeps_cells_refl].
  apply keeps_cells_set.
  - intros v Hv. congruence.
  - intros l0 Hl. rewrite E in Hl. inversion Hl; subst.
    exists l'. split; [reflexivity|].
    eapply fill_placeholder_keeps; eassumption.
Qed.

(** X12.  Whatever its outcome, [stitch] keeps what the destination
    inventory holds: no name is removed, a positive counter never decreases,
    and no cell of a list is moved or overwritten -- only slots that hold
    [None] are filled. *)
Theorem stitch_keeps_cells (src : inventory) (m : refmap) (dst : inventory) :
  keeps_cells dst (snd (stitch src m dst)).
Proof.
  assert (Hloop : forall (A T : Type) (body : A -> T -> M inventory T) l t s,
             (forall a t' s', keeps_cells s' (snd (body a t' s'))) ->
             keeps_cells s (snd (for_eachM l body t s))).
  { intros A T body l t s Hb.
    apply (for_eachM_invariant (keeps_cells s)); [|apply keeps_cells_refl].
    intros a t' s' Hs'. eapply keeps_cells_trans; [exact Hs' | apply Hb]. }
  unfold stitch, pre_stitch, bindM, liftM.
  destruct (inventory_items src) as [items|e]; cbn [snd];
    [|apply keeps_cells_refl].
  pose proof (Hloop _ _ pre_stitch_item items m dst
                (fun a t' s' => pre_stitch_item_keeps a t' s')) as H1.
  destruct (for_eachM items pre_stitch_item m dst) as [[m1|e] d1];
    cbn [snd] in *; [|assumption].
  eapply keeps_cells_trans; [exact H1|].
  pose proof (Hloop _ _ (stitch_item m1) items tt d1) as H2.
  destruct (for_eachM items (stitch_item m1) tt d1) as [[u|e2] d2];
    cbn [snd] in *; apply H2; clear H2;
    (intros [name [len|maps']] t' s'; cbn [stitch_item];
     [apply keeps_cells_refl|];
     unfold bindM;
     destruct (inventory_item name s') as [v|e3]; cbn [bind snd];
     [|apply keeps_cells_refl];
     apply Hloop; intros; apply stitch_cell_keeps).
Qed.

(** ** [compose] *)

(** A composition that answers [(None, False)] has not touched [dst]. *)
Lemma compose_refusal_state (src : Ntext) (n : nat) (mapping : option refmap)
  (dst : Ntext) (m : refmap) (dst' : Ntext) :
  compose src n mapping dst = (Ok (None, m), dst') ->
  dst' = dst
  /\ exists m0,
       composable dst src n
         (Some match mapping with None => [] | Some m => m end)
       = Ok (false, m0).
Proof.
  destruct n as [|n]; cbn [compose].
  - destruct (composable dst src 0 _) as [[c m']|e]; [|discriminate].
    destruct c; cbn [negb].
    + destruct (stitch _ _ _) as [[m1|e] ntext]; [|discriminate].
      destruct (bind _ _) as [tm|e]; discriminate.
    + intros H. inversion H; subst. eauto.
  - destruct (composable dst src (S n) _) as [[c m']|e]; [|discriminate].
    destruct c; cbn [negb].
    + destruct (stitch _ _ _) as [[m1|e] ntext]; [|discriminate].
      destruct (compose_boundary _ _ _ _) as [[r0|e] [d dm]];
        [|discriminate].
      destruct (compose_boundary _ _ _ _) as [[r1|e] [d1 dm1]]; discriminate.
    + intros H. inversion H; subst. eauto.
Qed.

(** The attributes of the diagram that a vertical composition returns. *)
Lemma compose_vertical_fields (src : Ntext) (mapping : option refmap)
  (dst r : Ntext) (m : refmap) (dst' : Ntext) :
  compose src 0 mapping dst = (Ok (Some r, m), dst') ->
  dim r = dim dst /\ dim dst = dim src
  /\ source r = source dst /\ smap r = smap dst
  /\ target r = target src
  /\ py_eq (source src) (target dst) = true
  /\ exists items tm,
       tmap src = Some items /\ translate m items = Ok tm
       /\ tmap r = Some tm.
Proof.
  cbn [compose].
  destruct (composable dst src 0 _) as [[c m']|e] eqn:Ec; [|discriminate].
  destruct c; cbn [negb]; [|discriminate].
  destruct (stitch _ _ _) as [[m1|e] ntext]; [|discriminate].
  destruct (tmap src) as [items|] eqn:Et; [|discriminate]. cbn [deref bind].
  destruct (translate m1 items) as [tm|e] eqn:Etr; [|discriminate].
  intros H. inversion H; subst; clear H. cbn.
  apply composable_vertical_true in Ec. destruct Ec as (Hd & Heq & _).
  repeat split; auto. eauto.
Qed.

(** X13.  A vertical composition that returns a diagram returns one of the
    dimension of both arguments, with the source and the source map of
    [dst], the target of [src], and the target map of [src] translated
    through the table; the source of [src] equals the target of [dst]. *)
Theorem compose_vertical_result (src : Ntext) (mapping : option refmap)
  (dst r : Ntext) (m : refmap) (dst' : Ntext) :
  compose src 0 mapping dst = (Ok (Some r, m), dst') ->
  dim r = dim dst /\ dim dst = dim src
  /\ source r = source dst /\ smap r = smap dst
  /\ target r = target src
  /\ py_eq (source src) (target dst) = true
  /\ exists items tm,
       tmap src = Some items /\ translate m items = Ok tm
       /\ tmap r = Some tm.
Proof. apply compose_vertical_fields. Qed.

Lemma compose_vertical_result_witness :
  compose cell_f 0 None id_x
  = (Ok (Some id_x_then_f, table_x_f), set_cells (cells id_x_then_f) id_x)
  /\ source id_x_then_f = source id_x
  /\ target id_x_then_f = target cell_f.
Proof.
  split; [reflexivity|].
  destruct (compose_vertical_result cell_f None id_x
              (r := id_x_then_f) (m := table_x_f)
              (dst' := set_cells (cells id_x_then_f) id_x) eq_refl)
    as (_ & _ & Hs & _ & Ht & _).
  split; assumption.
Defined.

(** X14.  A composition along a lower boundary (relative dimension above 0)
    never returns a diagram: it answers [(None, False)] without touching
    [dst], or it raises an exception of the interpreter. *)
Theorem compose_lower_never_returns_a_diagram (src : Ntext) (n : nat)
  (mapping : option refmap) (dst : Ntext) :
  (exists m, compose src (S n) mapping dst = (Ok (None, m), dst))
  \/ (exists e dst',
         compose src (S n) mapping dst = (Raise e, dst') /\ builtin e).
Proof.
  pose proof (only_builtin_compose src (S n) mapping dst) as Hb.
  destruct (compose src (S n) mapping dst) as [[[[r|] m]|e] dst'] eqn:E.
  - exfalso. eapply compose_lower_raises. exact E.
  - left. exists m. apply compose_refusal_state in E.
    destruct E as [-> _]. reflexivity.
  - right. exists e, dst'. split; [reflexivity|]. apply Hb. reflexivity.
Qed.

(** X15.  [compose] never raises [NotComposable] or [NotCompatible],
    whatever the diagrams, the dimension and the table: its failures are
    the answer [(None, False)] and exceptions of the interpreter. *)
Theorem compose_raises_only_builtin (src : Ntext) (n : nat)
  (mapping : option refmap) (dst : Ntext) (e : exn) :
  fst (compose src n mapping dst) = Raise e ->
  e <> NotComposable /\ e <> NotCompatible.
Proof. apply (only_builtin_compose src n mapping dst). Qed.

Lemma compose_raises_only_builtin_witness :
  fst (compose cell_g 0 None id_x) = Raise KeyError
  /\ KeyError <> NotComposable /\ KeyError <> NotCompatible.
Proof.
  split; [reflexivity|].
  apply (compose_raises_only_builtin cell_g 0 None id_x). reflexivity.
Defined.

(** ** [Composition] *)



(** ** The source and target maps of the diagrams that can be obtained *)

Lemma _ncell_generators_tidy (name sn tn : string) (r : Ntext) :
  _ncell name (zcell sn) (zcell tn) = Ok r -> tidy r.
Proof.
  unfold _ncell; simpl; unfold keyb, Key_string.
  destruct (String.eqb sn name) eqn:E1; simpl; unfold keyb, Key_string;
    destruct (String.eqb tn name) eqn:E2; simpl; unfold keyb, Key_string;
    try rewrite E1; simpl;
    destruct (String.eqb tn sn) eqn:E3; simpl;
    try discriminate;
    intros H; inversion H; subst; clear H; apply tidy_cell.
Qed.

Lemma translate_singleton (m : refmap) (b : string) (j : Z) (tm : imap) :
  translate m [(b, IList [j])] = Ok tm -> exists x, tm = [(b, IList [x])].
Proof.
  unfold translate; simpl.
  destruct (dict_item (b, j) m) as [r|e]; simpl; [|discriminate].
  intros H. inversion H. eauto.
Qed.

Lemma tidy_set_cells (c : inventory) (d : Ntext) :
  tidy d -> 1 <= dim d -> tidy (set_cells c d).
Proof.
  destruct 1 as [name|c' a b i j]; simpl; [lia|]. intros _. constructor.
Qed.

Lemma built_tidy (d : Ntext) : built d -> tidy d.
Proof.
  induction 1 as [name | d r Hd IH Hi | name s t r Hs IHs Ht IHt Hn
                 | dst src n mapping r m dst' Hdst IHdst Hsrc IHsrc Hc
                 | dst src n mapping Hdst IHdst Hsrc IHsrc
                 | d s Hd IH Es | d t Hd IH Et].
  - constructor.
  - destruct (icell_shallow (built_shallow Hd) Hi) as [name ->].
    inversion Hi; subst. constructor.
  - pose proof (ncell_inv _ _ _ Hn) as (Hc & _).
    pose proof (proj1 (compatible_true _ _) Hc) as (_ & _ & Hd).
    unfold ncell in Hn. rewrite Hc in Hn. simpl in Hn.
    destruct IHs as [sn|c a b i j].
    + destruct IHt as [tn|c' a' b' i' j']; [|discriminate].
      eapply _ncell_generators_tidy; eassumption.
    + rewrite _ncell_cell_raises in Hn; [discriminate | | simpl; lia].
      apply built_shallow. assumption.
  - destruct n as [|n]; [|exfalso; eapply compose_lower_raises; eassumption].
    apply compose_vertical_fields in Hc.
    destruct Hc as (Hd & Hdd & Hs' & Hsm & Ht' & _ & items & tm & Hi & Htr & Htm).
    destruct r as [rc rd rs rt rsm rtm]. simpl in *. subst.
    destruct IHdst as [x|c a b i j];
      destruct IHsrc as [x'|c' a' b' i' j']; simpl in *;
      try discriminate.
    inversion Hi; subst.
    apply translate_singleton in Htr. destruct Htr as [x ->]. constructor.
  - pose proof (built_shallow Hdst) as Sdst.
    pose proof (built_shallow Hsrc) as Ssrc.
    destruct IHdst as [x|c a b i j].
    + rewrite (proj1 (compose_on_generator n x mapping Ssrc)). constructor.
    + destruct (compose_state n mapping Sdst Ssrc) as [->|[m0 ->]];
        constructor.
  - destruct IH as [name|c a b i j]; simpl in Es; [discriminate|].
    injection Es as <-. constructor.
  - destruct IH as [name|c a b i j]; simpl in Et; [discriminate|].
    injection Et as <-. constructor.
Qed.

Lemma py_eq_generators (a b : string) :
  py_eq (Some (zcell a)) (Some (zcell b)) = String.eqb a b.
Proof.
  change (py_eq (Some (zcell a)) (Some (zcell b)))
    with (Ntext_eqb (zcell a) (zcell b)).
  rewrite Ntext_eqb_unfold. simpl.
  change (py_eq (Atomic a) (Atomic b)) with (String.eqb a b).
  rewrite !andb_true_r. reflexivity.
Qed.

(** What [composable] does with a table on two tidy diagrams of the same
    dimension: it never answers [False]. *)
Lemma composable_tidy (dst src : Ntext) (m : refmap) :
  tidy dst -> tidy src -> dim dst = dim src ->
  (exists m', composable dst src 0 (Some m) = Ok (true, m')
              /\ py_eq (source src) (target dst) = true)
  \/ (composable dst src 0 (Some m) = Raise KeyError
      /\ py_eq (source src) (target dst) = false)
  \/ (composable dst src 0 (Some m) = Raise AttributeError /\ dim dst = 0).
Proof.
  intros [x|c a b i j] [x'|c' a' b' i' j']; simpl; try discriminate.
  - intros _. right. right. split; reflexivity.
  - intros _. unfold composable.
    cbn [dim Z.eqb Pos.eqb negb get_face Z.ltb Z.compare source target
         smap tmap bind deref].
    rewrite py_eq_generators.
    unfold record_face, subscript, dict_item, dict_get, keyb, Key_string.
    cbn [for_each bind].
    destruct (String.eqb a' b).
    + left. eexists. split; reflexivity.
    + right. left. split; reflexivity.
Qed.

(** ** When [NotComposable] is raised *)

(** X17.  On the diagrams that can be obtained, a vertical composition by
    [Composition.compose] raises [NotComposable] exactly when the two
    diagrams differ in dimension.  For two diagrams of dimension 1 whose
    gluing faces differ it raises [KeyError], and leaves the composer as it
    was. *)
Theorem NotComposable_only_on_dimension_mismatch (dst src : Ntext) :
  built dst -> built src ->
  (fst (Composition_compose src 0 (mkComposition dst)) = Raise NotComposable
   <-> dim dst <> dim src)
  /\ (dim dst = dim src -> 1 <= dim dst ->
      py_eq (source src) (target dst) = false ->
      Composition_compose src 0 (mkComposition dst)
      = (Raise KeyError, mkComposition dst)).
Proof.
  intros Hdst Hsrc.
  pose proof (built_tidy Hdst) as Tdst. pose proof (built_tidy Hsrc) as Tsrc.
  split; [split|].
  - intros H. intros Hd.
    unfold Composition_compose in H. cbn [_ntext] in H.
    pose proof (only_builtin_compose src 0 None dst) as Hb.
    destruct (compose src 0 None dst) as [[[[r|] m]|e] dst'] eqn:E;
      cbn [fst] in *; try discriminate.
    + apply compose_refusal_state in E. destruct E as (_ & m0 & E).
      destruct (composable_tidy [] Tdst Tsrc Hd)
        as [(m' & E' & _)|[[E' _]|[E' _]]]; rewrite E' in E; discriminate.
    + inversion H; subst.
      destruct (Hb NotComposable eq_refl) as [Hn _]. contradiction.
  - intros Hd. unfold Composition_compose, compose, composable.
    cbn [_ntext]. apply Z.eqb_neq in Hd. rewrite Hd. reflexivity.
  - intros Hd Hpos Hneq.
    destruct (composable_tidy [] Tdst Tsrc Hd)
      as [(m' & _ & E')|[[E' _]|[_ E']]]; [congruence| |lia].
    unfold Composition_compose. cbn [_ntext compose]. rewrite E'. reflexivity.
Qed.

Lemma NotComposable_only_on_dimension_mismatch_witness :
  fst (Composition_compose gen_x 0 (mkComposition cell_f))
  = Raise NotComposable
  /\ Composition_compose cell_f 0 (mkComposition cell_f)
     = (Raise KeyError, mkComposition cell_f).
Proof.
  destruct (NotComposable_only_on_dimension_mismatch
              built_cell_f (built_zcell "x")) as [Hiff _].
  destruct (NotComposable_only_on_dimension_mismatch
              built_cell_f built_cell_f) as [_ Hkey].
  split.
  - apply Hiff. discriminate.
  - apply Hkey; [reflexivity | simpl; lia | reflexivity].
Defined.

(** ** The diagrams that can be obtained *)

(** X18.  Every diagram that the constructors and composition produce is a
    generator or a diagram of dimension 1: its source and target are
    generators, its source map and its target map bind the name of that
    generator to one position, and its inventory holds a positive
    counter. *)
Theorem obtainable_diagrams (d : Ntext) :
  built d ->
  (exists name, d = zcell name)
  \/ (dim d = 1
      /\ has_counter (cells d)
      /\ exists a b i j,
           source d = Some (zcell a) /\ target d = Some (zcell b)
           /\ smap d = Some [(a, IList [i])]
           /\ tmap d = Some [(b, IList [j])]).
Proof.
  intros H. pose proof (built_shallow H) as Hs.
  apply built_tidy in H.
  destruct H as [name|c a b i j]; [left; eauto|].
  right. split; [reflexivity|]. split.
  - inversion Hs; subst. assumption.
  - exists a, b, i, j. repeat split.
Qed.

Lemma obtainable_diagrams_witness :
  (exists name, id_x_then_f = zcell name)
  \/ (dim id_x_then_f = 1
      /\ has_counter (cells id_x_then_f)
      /\ exists a b i j,
           source id_x_then_f = Some (zcell a)
           /\ target id_x_then_f = Some (zcell b)
           /\ smap id_x_then_f = Some [(a, IList [i])]
           /\ tmap id_x_then_f = Some [(b, IList [j])]).
Proof.
  apply obtainable_diagrams.
  apply (@built_compose id_x cell_f 0 None id_x_then_f table_x_f
           (set_cells (cells id_x_then_f) id_x)).
  - apply (built_icell (built_zcell "x")). reflexivity.
  - exact built_cell_f.
  - reflexivity.
Defined.

(** X19.  No diagram of dimension 2 can be obtained: on every diagram of
    dimension 1 that the constructors and composition produce, [icell]
    raises [TypeError], and [ncell] with that diagram as source raises,
    whatever the name and the target. *)
Theorem no_diagram_of_dimension_2 (d : Ntext) :
  built d -> 1 <= dim d ->
  icell d = Raise TypeError
  /\ forall name t,
       ncell name d t = Raise TypeError
       \/ ncell name d t = Raise NotCompatible
       \/ ncell name d t = Raise AssertionError.
Proof.
  intros Hb Hd. apply built_shallow in Hb. split.
  - apply icell_cell_raises; assumption.
  - intros name t. unfold ncell, compatible.
    destruct (py_eq (source d) (source t) && py_eq (target d) (target t));
      [|right; left; reflexivity].
    destruct (dim d =? dim t); [|right; right; reflexivity].
    left. simpl. apply _ncell_cell_raises; assumption.
Qed.

Lemma no_diagram_of_dimension_2_witness :
  icell id_x = Raise TypeError
  /\ ncell "a" id_x id_x = Raise TypeError.
Proof.
  destruct (@no_diagram_of_dimension_2 id_x) as [Hi Hn].
  - apply (built_icell (built_zcell "x")). reflexivity.
  - simpl. lia.
  - split; [exact Hi | reflexivity].
Defined.

(** ** [adapt] *)

(** X20.  [adapt] is inert: whatever its outcome, the diagram is as it was.
    With a reordering for at least one name it raises; with the empty
    reordering it returns on every globular diagram that is at least as deep
    as the relative dimension asked for. *)
Theorem adapt_is_inert (n : nat) (perm : dict string (list Z))
  (cell : Ntext) :
  snd (adapt n perm cell) = cell
  /\ (perm <> [] -> exists e, fst (adapt n perm cell) = Raise e)
  /\ (perm = [] -> globular cell -> Z.of_nat n <= dim cell ->
      fst (adapt n perm cell) = Ok tt).
Proof.
  split; [apply adapt_changes_nothing|]. split.
  - intros Hp. destruct (adapt_raises n cell Hp) as [e ->].
    exists e. reflexivity.
  - intros ->. revert cell.
    assert (H : forall cell, globular cell -> Z.of_nat n <= dim cell ->
                             adapt n [] cell = (Ok tt, cell));
      [|intros cell Hg Hd; rewrite H; auto].
    induction n as [|n IH]; intros cell Hg Hd.
    + destruct cell; reflexivity.
    + destruct Hg as [name|c s t sm tm Hs Ht Hc]; [simpl in Hd; lia|].
      pose proof (proj1 (compatible_true _ _) Hc) as (_ & _ & Hdim).
      simpl in *. rewrite (IH s Hs) by lia. rewrite (IH t Ht) by lia.
      reflexivity.
Qed.

Lemma adapt_is_inert_witness :
  fst (adapt 1 [] cell_f) = Ok tt
  /\ exists e, fst (adapt 1 [("x", [0])] cell_f) = Raise e.
Proof.
  destruct (adapt_is_inert 1 [] cell_f) as (_ & _ & Hok).
  destruct (adapt_is_inert 1 [("x", [0])] cell_f) as (_ & Hraise & _).
  split.
  - apply Hok; [reflexivity | | simpl; lia].
    apply built_globular, built_cell_f.
  - apply Hraise. discriminate.
Defined.

(** ** [permute] *)

Lemma comprehension_nth {A B : Type} (f : A -> result B) (q : list A)
  (l1 : list B) :
  comprehension f q = Ok l1 ->
  List.length l1 = List.length q
  /\ forall p i, nth_error q p = Some i ->
                 exists x, f i = Ok x /\ nth_error l1 p = Some x.
Proof.
  revert l1. induction q as [|a q IH]; intros l1 H; simpl in H.
  - inversion H; subst. split; [reflexivity|]. intros [|p] i Hp; discriminate.
  - apply bind_Ok in H. destruct H as (b & Hb & H).
    apply bind_Ok in H. destruct H as (bs & Hbs & H).
    inversion H; subst. destruct (IH bs Hbs) as [Hlen Hnth].
    split; [simpl; congruence|].
    intros [|p] i Hp; simpl in *; [inversion Hp; subst; eauto | auto].
Qed.

(** Selecting from a selection. *)
Lemma py_index_selection {A : Type} (l : list A) (q : list Z) (l1 : list A)
  (j i : Z) :
  comprehension (py_index l) q = Ok l1 -> py_index q j = Ok i ->
  py_index l1 j = py_index l i.
Proof.
  intros Hsel Hj.
  destruct (@comprehension_nth _ _ (py_index l) q l1 Hsel) as [Hlen Hnth].
  unfold py_index in Hj |- * at 1. rewrite Hlen.
  destruct (_ && _); [|discriminate].
  destruct (nth_error q _) as [i'|] eqn:E; [|discriminate].
  inversion Hj; subst.
  destruct (Hnth _ _ E) as (x & Hx & ->). symmetry. exact Hx.
Qed.

Lemma selection_compose {A : Type} (l : list A) (q q' q2 : list Z)
  (l1 : list A) :
  comprehension (py_index l) q = Ok l1 ->
  comprehension (py_index q) q' = Ok q2 ->
  comprehension (py_index l1) q' = comprehension (py_index l) q2.
Proof.
  intros Hsel. revert q2. induction q' as [|j q' IH]; intros q2 H; simpl in H.
  - inversion H; subst. reflexivity.
  - apply bind_Ok in H. destruct H as (i & Hi & H).
    apply bind_Ok in H. destruct H as (r & Hr & H).
    inversion H; subst. simpl.
    rewrite (@py_index_selection _ l q l1 j i Hsel Hi), (IH _ Hr).
    reflexivity.
Qed.

Lemma selection_identity_from {A : Type} (pre l : list A) :
  comprehension (py_index (pre ++ l))
    (map (fun i => 0 + Z.of_nat i) (seq (List.length pre) (List.length l)))
  = Ok l.
Proof.
  revert pre. induction l as [|a l IH]; intros pre; [reflexivity|].
  simpl.
  assert (E : py_index (pre ++ a :: l) (Z.of_nat (List.length pre)) = Ok a).
  { unfold py_index. rewrite length_app. simpl List.length.
    replace (Z.of_nat (List.length pre) <? 0) with false
      by (symmetry; apply Z.ltb_ge; lia).
    replace ((0 <=? Z.of_nat (List.length pre))
             && (Z.of_nat (List.length pre)
                 <? Z.of_nat (List.length pre + S (List.length l))))
      with true
      by (symmetry; apply andb_true_iff; split;
          [apply Z.leb_le | apply Z.ltb_lt]; lia).
    rewrite Nat2Z.id, nth_error_app2, Nat.sub_diag by lia. reflexivity. }
  rewrite E. simpl.
  specialize (IH (pre ++ [a])).
  rewrite <- app_assoc, length_app in IH. simpl in IH.
  rewrite Nat.add_1_r in IH. rewrite IH. reflexivity.
Qed.

Lemma selection_identity {A : Type} (l : list A) :
  comprehension (py_index l) (range_list 0 (Z.of_nat (List.length l)))
  = Ok l.
Proof.
  unfold range_list. rewrite Z.sub_0_r, Nat2Z.id.
  apply (selection_identity_from [] l).
Qed.

Lemma dict_set_set {K V : Type} `{KeyLaws K} (k : K) (v v' : V)
  (d : dict K V) :
  dict_set k v (dict_set k v' d) = dict_set k v d.
Proof.
  induction d as [|[k0 v0] d IH]; simpl.
  - rewrite keyb_refl. reflexivity.
  - destruct (keyb k k0) eqn:E; simpl; rewrite E; [reflexivity|].
    rewrite IH. reflexivity.
Qed.

Lemma dict_set_same_value {K V : Type} `{KeyLaws K} (k : K) (v : V)
  (d : dict K V) :
  dict_get k d = Some v -> dict_set k v d = d.
Proof.
  induction d as [|[k0 v0] d IH]; simpl; [discriminate|].
  destruct (keyb k k0) eqn:E.
  - intros H1. inversion H1; subst. reflexivity.
  - intros H1. rewrite IH by assumption. reflexivity.
Qed.

(** X21.  On an inventory and its index map, [permute] is undone by the
    inverse reordering: if the list of cells and the index list of a name
    have the same length, a reordering [q] of that name succeeds, and [q']
    selects from [q] the positions in order ([q[q'[j]] = j]), then permuting
    by [q'] afterwards restores the inventory and the index map. *)
Theorem permute_inverse_restores (name : string) (q q' : list Z)
  (d : dict string cellsval) (mp : imap) (l : list (option NtextCell))
  (ix : list Z) (st1 : subscriptable * option imap) :
  dict_get name d = Some (CSeq l) ->
  dict_get name mp = Some (IList ix) ->
  List.length ix = List.length l ->
  comprehension (py_index q) q' = Ok (range_list 0 (Z.of_nat (List.length l))) ->
  permute [(name, q)] (SubInventory d, Some mp) = (Ok tt, st1) ->
  permute [(name, q')] st1 = (Ok tt, (SubInventory d, Some mp)).
Proof.
  intros Hd Hmp Hlen Hinv H.
  unfold permute, for_eachM, bindM, permute_item, dict_item, subscript,
    dict_item in H.
  rewrite Hd, Hmp in H. cbn [bind idxs_items] in H.
  destruct (comprehension (py_index l) q) as [l1|e] eqn:E1;
    cbn [bind] in H; [|discriminate].
  destruct (comprehension (py_index ix) q) as [ix1|e] eqn:E2;
    cbn [bind] in H; [|discriminate].
  inversion H; subst; clear H.
  unfold permute, for_eachM, bindM, permute_item, dict_item, subscript,
    dict_item.
  rewrite !dict_get_set_same. cbn [bind idxs_items].
  rewrite (@selection_compose _ l q q' _ l1 E1 Hinv), selection_identity.
  cbn [bind].
  rewrite <- Hlen in Hinv.
  rewrite (@selection_compose _ ix q q' _ ix1 E2 Hinv), selection_identity.
  cbn [bind].
  rewrite !dict_set_set, (@dict_set_same_value _ _ _ _ name _ d Hd),
    (@dict_set_same_value _ _ _ _ name _ mp Hmp).
  reflexivity.
Qed.

Lemma permute_inverse_restores_witness :
  let c1 := Some (mkNtextCell [("x", IList [0])] [("y", IList [0])]) in
  let c2 := Some (mkNtextCell [("y", IList [0])] [("z", IList [0])]) in
  let c3 := Some (mkNtextCell [("z", IList [0])] [("x", IList [1])]) in
  permute [("f", [2; 0; 1])]
    (SubInventory [("f", CSeq [c2; c3; c1])], Some [("f", IList [5; 6; 4])])
  = (Ok tt,
      (SubInventory [("f", CSeq [c1; c2; c3])], Some [("f", IList [4; 5; 6])])).
Proof.
  intros c1 c2 c3.
  apply (@permute_inverse_restores "f" [1; 2; 0] [2; 0; 1]
           [("f", CSeq [c1; c2; c3])] [("f", IList [4; 5; 6])]
           [c1; c2; c3] [4; 5; 6]); reflexivity.
Defined.

(** ** [_ncell] above generators *)

Lemma append_target_step (n : string) (cells' : cellsval)
  (st st' : ncell_state) :
  ncell_append_target (n, cells') st = Ok st' ->
  (exists l old,
      cells' = CSeq l
      /\ dict_get n (st_ntext st')
         = Some (WSeq (old ++ map (fun c => SOld (deepcopy c)) l))
      /\ dict_get n (st_offset st') = Some (Z.of_nat (List.length old)))
  /\ (forall k, k <> n ->
                dict_get k (st_ntext st') = dict_get k (st_ntext st)
                /\ dict_get k (st_offset st') = dict_get k (st_offset st))
  /\ (forall k, dict_mem k (st_ntext st) = true ->
                dict_mem k (st_ntext st') = true).
Proof.
  unfold ncell_append_target, dict_item.
  set (ntext0 := if dict_mem n (st_ntext st) then st_ntext st
                 else dict_set n (WSeq []) (st_ntext st)).
  assert (H0 : forall k, k <> n -> dict_get k ntext0 = dict_get k (st_ntext st)).
  { intros k Hk. unfold ntext0. destruct (dict_mem n (st_ntext st)); auto.
    apply dict_get_set_other. congruence. }
  assert (M0 : forall k, dict_mem k (st_ntext st) = true ->
                         dict_mem k ntext0 = true).
  { intros k Hk. unfold ntext0. destruct (dict_mem n (st_ntext st)); auto.
    unfold dict_mem in *. destruct (string_dec n k) as [->|Hn].
    - rewrite dict_get_set_same. reflexivity.
    - rewrite dict_get_set_other by assumption. assumption. }
  destruct (dict_get n ntext0) as [[c|old]|]; cbn [bind]; try discriminate.
  destruct cells' as [c|l]; [discriminate|].
  intros H. inversion H; subst; clear H. cbn [st_ntext st_offset].
  split; [|split].
  - exists l, old. rewrite !dict_get_set_same. auto.
  - intros k Hk. rewrite !dict_get_set_other by congruence. auto.
  - intros k Hk. unfold dict_mem. destruct (string_dec n k) as [->|Hn].
    + rewrite dict_get_set_same. reflexivity.
    + rewrite dict_get_set_other by assumption. apply M0 in Hk. exact Hk.
Qed.

Lemma append_target_loop (tc : dict string cellsval) (st st' : ncell_state) :
  for_each tc ncell_append_target st = Ok st' ->
  NoDup (map fst tc) ->
  (forall k v, In (k, v) tc ->
     exists l old,
       v = CSeq l
       /\ dict_get k (st_ntext st')
          = Some (WSeq (old ++ map (fun c => SOld (deepcopy c)) l))
       /\ dict_get k (st_offset st') = Some (Z.of_nat (List.length old)))
  /\ (forall k, ~ In k (map fst tc) ->
                dict_get k (st_ntext st') = dict_get k (st_ntext st)
                /\ dict_get k (st_offset st') = dict_get k (st_offset st))
  /\ (forall k, dict_mem k (st_ntext st) = true ->
                dict_mem k (st_ntext st') = true).
Proof.
  revert st. induction tc as [|[n c] tc IH]; intros st H Hnd; simpl in H.
  - inversion H; subst. repeat split; auto. intros k v [].
  - apply bind_Ok in H. destruct H as (st1 & H1 & H).
    inversion Hnd as [|? ? Hnotin Hnd']; subst.
    destruct (IH _ H Hnd') as (Hin & Hout & Hmem).
    destruct (append_target_step _ _ _ H1) as (Hn & Hother & Hmem1).
    split; [|split].
    + intros k v [E|HIn].
      * inversion E; subst.
        destruct Hn as (l & old & -> & Hnt & Hoff).
        destruct (Hout k Hnotin) as [-> ->]. eauto.
      * apply (Hin k v HIn).
    + intros k Hk. simpl in Hk.
      destruct (Hout k) as [-> ->]; [tauto|]. apply Hother.
      intros ->. tauto.
    + auto.
Qed.

Lemma range_list_nil (a b : Z) : range_list a b = [] -> b <= a.
Proof.
  unfold range_list. intros H. apply map_eq_nil in H.
  destruct (Z.to_nat (b - a)) eqn:E; [lia | discriminate].
Qed.

Lemma shift_target_Ok (k : string) (L : list slot) (offset : dict string Z) :
  ncell_shift_target (k, WSeq L) offset = Ok tt ->
  exists off,
    dict_get k offset = Some off /\ Z.of_nat (List.length L) <= off.
Proof.
  unfold ncell_shift_target, dict_item.
  destruct (dict_get k offset) as [off|]; cbn [bind]; [|discriminate].
  destruct (range_list off _) as [|i rest] eqn:E.
  - intros _. exists off. split; [reflexivity|].
    apply range_list_nil. assumption.
  - destruct (py_index L i) as [[|[c|]]|e]; discriminate.
Qed.

(** X22.  Above dimension 0, [_ncell] merges nothing: it returns only when
    the inventory of the target binds the name of the new cell and binds
    every name to an empty list.  As soon as a cell of the target has been
    appended, the loop that should shift its references raises. *)
Theorem _ncell_merges_nothing (name : string) (s t r : Ntext)
  (tc : dict string cellsval) :
  0 < dim s -> cells t = Indexed tc -> NoDup (map fst tc) ->
  _ncell name s t = Ok r ->
  In name (map fst tc) /\ forall k v, In (k, v) tc -> v = CSeq [].
Proof.
  intros Hd Ht Hnd H. unfold _ncell, deepcopy in H.
  apply Z.ltb_lt in Hd. rewrite Hd, Ht in H.
  apply bind_Ok in H. destruct H as (st3 & H & _).
  apply bind_Ok in H. destruct H as (sc & _ & H).
  apply bind_Ok in H. destruct H as (st1 & H1 & H).
  cbn [bind] in H.
  apply bind_Ok in H. destruct H as (st2 & H2 & H).
  apply bind_Ok in H. destruct H as ([] & H3 & _).
  destruct (append_target_loop _ _ H2 Hnd) as (Hin & Hout & Hmem).
  assert (Hshift : forall k L,
             dict_get k (st_ntext st2) = Some (WSeq L) ->
             exists off, dict_get k (st_offset st2) = Some off
                         /\ Z.of_nat (List.length L) <= off).
  { intros k L Hk. apply dict_get_Some in Hk.
    destruct (for_each_Ok_In _ _ _ _ H3 Hk) as ([] & [] & Hb).
    apply shift_target_Ok. assumption. }
  split.
  - destruct (in_dec string_dec name (map fst tc)) as [|Hno]; [assumption|].
    exfalso. destruct (Hout name Hno) as [Hnt Hoff].
    assert (M1 : dict_mem name (st_ntext st1) = true).
    { eapply for_each_invariant
        with (P := fun st => dict_mem name (st_ntext st) = true);
        [|exact H1|].
      - intros [n [c|l]] s1 s2 Hb Hs1; simpl in Hb; [discriminate|].
        inversion Hb; subst. cbn [st_ntext]. unfold dict_mem in *.
        destruct (string_dec n name) as [->|Hn].
        + rewrite dict_get_set_same. reflexivity.
        + rewrite dict_get_set_other by assumption. assumption.
      - simpl. unfold dict_mem. simpl. unfold keyb, Key_string.
        rewrite String.eqb_refl. reflexivity. }
    apply Hmem in M1. unfold dict_mem in M1.
    destruct (dict_get name (st_ntext st2)) as [w|] eqn:E; [|discriminate].
    apply dict_get_Some in E.
    destruct (for_each_Ok_In _ _ _ _ H3 E) as ([] & [] & Hb).
    unfold ncell_shift_target, dict_item in Hb.
    rewrite Hoff in Hb.
    assert (Hnone : dict_get name (st_offset st1) = None).
    { eapply for_each_invariant
        with (P := fun st => dict_get name (st_offset st) = None);
        [|exact H1|reflexivity].
      intros [n [c|l]] s1 s2 Hb' Hs1; simpl in Hb'; [discriminate|].
      inversion Hb'; subst. assumption. }
    rewrite Hnone in Hb. discriminate.
  - intros k v HIn. destruct (Hin k v HIn) as (l & old & -> & Hnt & Hoff).
    destruct (Hshift _ _ Hnt) as (off & Hoff' & Hle).
    rewrite Hoff in Hoff'. inversion Hoff'; subst.
    rewrite length_app, length_map in Hle.
    destruct l; [reflexivity | simpl in Hle; lia].
Qed.

Lemma _ncell_merges_nothing_witness :
  let s := mkNtext (Indexed []) 1 (Some gen_x) (Some gen_x) (Some [])
             (Some []) in
  let t := mkNtext (Indexed [("a", CSeq [])]) 1 (Some gen_x) (Some gen_x)
             (Some []) (Some []) in
  (exists r, _ncell "a" s t = Ok r)
  /\ In "a" (map fst [("a", CSeq (@nil (option NtextCell)))]).
Proof.
  intros s t. split; [eexists; reflexivity|].
  eapply (@_ncell_merges_nothing "a" s t _ [("a", CSeq [])]).
  - simpl. lia.
  - reflexivity.
  - repeat constructor. intros [].
  - reflexivity.
Defined.

(** ** Diagrams of different dimensions *)

(** X23.  On two diagrams of different dimensions, [composable] answers
    [False] and [compose] answers [(None, False)] at every relative
    dimension, also one at which [get_face] would raise; the table and
    [dst] are left as they were. *)
Theorem dimension_mismatch_is_refused (dst src : Ntext) (n : nat)
  (mapping : option refmap) :
  dim dst <> dim src ->
  composable dst src n mapping = Ok (false, mapping)
  /\ compose src n mapping dst
     = (Ok (None, match mapping with None => [] | Some m => m end), dst).
Proof.
  intros Hd. apply Z.eqb_neq in Hd.
  split; [unfold composable; rewrite Hd; reflexivity|].
  destruct n; cbn [compose]; unfold composable; rewrite Hd; reflexivity.
Qed.

Lemma dimension_mismatch_is_refused_witness :
  composable gen_x cell_f 3 None = Ok (false, None)
  /\ compose cell_f 3 None gen_x = (Ok (None, []), gen_x)
  /\ get_face gen_x 3 1 = Raise AttributeError.
Proof.
  destruct (@dimension_mismatch_is_refused gen_x cell_f 3 None) as [Hc Hk].
  - discriminate.
  - repeat split; assumption.
Defined.
